(** * BodyReadable (lib/api/readable.js): a single-use body stream

    A shallow embedding of [lib/api/readable.js].  [BodyReadable] extends
    Node's [stream.Readable]; it owns two private fields, [kBody] (the
    consumption lock) and [kDestroyed], and overrides [destroy], [push],
    [read], [resume], [pipe] and [on].  The module-level functions [start]
    and [consume] install the lock.

    JavaScript objects are mutable and exceptions do not roll back
    mutations, so every operation is a function from the state of the
    stream to an outcome that carries the state reached, on normal return
    and on a throw alike. *)

From Stdlib Require Import List String Ascii Bool Arith ZArith Lia.
From Stdlib Require Import Strings.Byte.
Import ListNotations.
Local Open Scope string_scope.
Local Open Scope list_scope.

Set Implicit Arguments.
Set Warnings "-register-all".

(** ** Values *)

(** Error objects, by the three properties the source sets or reads. *)
Record JSError : Type := mkError {
  err_name : string;
  err_message : string;
  err_code : option string
}.

(** [class AbortError extends Error] (lines 18-24). *)
Definition AbortError : JSError :=
  {| err_name := "AbortError";
     err_message := "The operation was aborted";
     err_code := Some "ABORT_ERR" |}.

Definition TypeError (msg : string) : JSError :=
  {| err_name := "TypeError"; err_message := msg; err_code := None |}.

Definition Error (msg : string) : JSError :=
  {| err_name := "Error"; err_message := msg; err_code := None |}.

Definition RangeError (msg : string) : JSError :=
  {| err_name := "RangeError"; err_message := msg; err_code := None |}.

(** A line feed. *)
Definition LF : string := String (Ascii.ascii_of_nat 10) EmptyString.

(** [assert(self.listenerCount('data') === 0)] failing (line 119).  Node's
    [assert] makes the message of the source text of the call. *)
Definition AssertionError : JSError :=
  {| err_name := "AssertionError";
     err_message :=
       String.append "The expression evaluated to a falsy value:"
         (String.append LF
            (String.append LF
               (String.append "  assert(self.listenerCount('data') === 0)"
                  LF)));
     err_code := Some "ERR_ASSERTION" |}.

(** A chunk is a byte buffer ([Buffer]); the value handed to [push] is a
    chunk or [null].  A [Buffer] is an object, hence truthy even when it
    is empty: on these values [!val] and [val === null] agree. *)
Definition chunk : Type := list byte.
Definition val : Type := option chunk.

(** The constants [kWebStreamType] .. [kJSONType] (lines 12-16). *)
Inductive Mode : Type :=
| kWebStreamType | kTextType | kBlobType | kArrayBufferType | kJSONType.

Definition mode_code (m : Mode) : Z :=
  match m with
  | kWebStreamType => 1
  | kTextType => 2
  | kBlobType => 3
  | kArrayBufferType => 4
  | kJSONType => 5
  end.

Definition mode_eqb (a b : Mode) : bool := Z.eqb (mode_code a) (mode_code b).

(** Structured data, as [JSON.parse] returns it. *)
Inductive JSONValue : Type :=
| JNull
| JBool (b : bool)
| JNum (n : Z)
| JStr (s : string)
| JArr (l : list JSONValue)
| JObj (fields : list (string * JSONValue)).

(** The [body] property of an accumulator lock: a string, an array of
    chunks, or [null] once the end sentinel went through. *)
Inductive AccBody : Type :=
| BStr (s : string)
| BArr (l : list chunk)
| BNull.

(** What a promise of [text], [json], [blob] or [arrayBuffer] resolves
    with. *)
Inductive Value : Type :=
| VBody (b : AccBody)
| VJson (j : JSONValue)
| VArrayBuffer (bytes : list byte)
| VBlob (parts : list chunk).

Inductive PromiseState : Type :=
| Pending
| Fulfilled (v : Value)
| Rejected (e : JSError).

(** ** The pull-stream controller

    [ReadableStreamDefaultController] of [stream/web], an external
    collaborator, at the granularity [push] observes: the queue, whether
    close was requested, and the stream state.  The stream is created with
    [{ highWaterMark: 16 * 1024 }] and no [size] function, so every queued
    chunk counts for one. *)
Module Controller.

Inductive status : Type := SReadable | SClosed | SErrored (e : JSError).

Record t : Type := mk {
  queue : list (list byte);
  closeRequested : bool;
  state : status
}.

Definition highWaterMark : Z := 16 * 1024.

Definition fresh : t :=
  {| queue := []; closeRequested := false; state := SReadable |}.

Definition canCloseOrEnqueue (c : t) : bool :=
  match state c with
  | SReadable => negb (closeRequested c)
  | _ => false
  end.

(** [controller.desiredSize]: [null] when errored, [0] when closed. *)
Definition desiredSize (c : t) : option Z :=
  match state c with
  | SErrored _ => None
  | SClosed => Some 0%Z
  | SReadable => Some (highWaterMark - Z.of_nat (List.length (queue c)))%Z
  end.

(** [controller.desiredSize > 0]; [null > 0] is [false]. *)
Definition desiredSize_gt0 (c : t) : bool :=
  match desiredSize c with
  | Some d => (0 <? d)%Z
  | None => false
  end.

(** Node's [ERR_INVALID_STATE.TypeError]. *)
Definition invalid_state : JSError :=
  {| err_name := "TypeError";
     err_message := "Invalid state: Controller is already closed";
     err_code := Some "ERR_INVALID_STATE" |}.

Definition enqueue (u8 : list byte) (c : t) : JSError + t :=
  if canCloseOrEnqueue c
  then inr {| queue := queue c ++ [u8];
              closeRequested := closeRequested c;
              state := state c |}
  else inl invalid_state.

Definition close (c : t) : JSError + t :=
  if canCloseOrEnqueue c
  then inr {| queue := queue c;
              closeRequested := true;
              state := match queue c with [] => SClosed | _ => SReadable end |}
  else inl invalid_state.

(** The consumer reads one queued chunk. *)
Definition dequeue (c : t) : t :=
  match queue c with
  | [] => c
  | _ :: rest =>
      {| queue := rest;
         closeRequested := closeRequested c;
         state := match rest, closeRequested c, state c with
                  | [], true, SReadable => SClosed
                  | _, _, st => st
                  end |}
  end.

End Controller.

(** [new Uint8Array(val)] on a [Buffer]: a fresh typed array holding a copy
    of the bytes. *)
Definition Uint8Array (b : chunk) : list byte := b.

(** ** Locks, listeners, the stream *)

Inductive AccMode : Type := AText | AJson | ABlob | AArrayBuffer.

Definition AccMode_type (a : AccMode) : Mode :=
  match a with
  | AText => kTextType
  | AJson => kJSONType
  | ABlob => kBlobType
  | AArrayBuffer => kArrayBufferType
  end.

(** The object stored in [self[kBody]]: the literal of lines 165-202
    ([type: kWebStreamType, used, buffer: self, controller]) or the one of
    lines 234-278 ([type, used, body], with [resolve] captured by the
    closure, here the index of its promise). *)
Inductive Lock : Type :=
| WebLock (used : bool) (controller : option Controller.t)
| AccLock (type : AccMode) (used : bool) (body : AccBody) (promise : nat).

Definition lock_used (l : Lock) : bool :=
  match l with
  | WebLock u _ => u
  | AccLock _ u _ _ => u
  end.

Definition lock_type (l : Lock) : Mode :=
  match l with
  | WebLock _ _ => kWebStreamType
  | AccLock a _ _ _ => AccMode_type a
  end.

(** [this[kBody]]: [undefined] from the constructor, [null] after a
    no-mode consumption, or a lock object. *)
Inductive Slot : Type :=
| Undefined
| Null
| Obj (l : Lock).

(** JavaScript truthiness of the slot: only an object is truthy. *)
Definition truthy (k : Slot) : bool :=
  match k with
  | Obj _ => true
  | _ => false
  end.

Inductive Event : Type :=
| EvData | EvReadable | EvError | EvEnd | EvOther (name : string).

Definition is_data_or_readable (ev : Event) : bool :=
  match ev with
  | EvData | EvReadable => true
  | _ => false
  end.

Definition is_data (ev : Event) : bool :=
  match ev with EvData => true | _ => false end.

(** The listeners the module registers, and the consumer's own. *)
Inductive Handler : Type :=
| HUser (id : nat)
    (* a listener of the consumer *)
| HPipe
    (* the 'data' listener [pipe] installs *)
| HControllerError
    (* line 158: err => { this.controller.error(err) } *)
| HReject (promise : nat)
    (* line 229: reject *)
| HEndDestroy.
    (* lines 161 and 230: () => Readable.prototype.destroy.call(self, null) *)

(** Work Node defers: [process.nextTick] callbacks of the base stream and
    the microtask of line 193. *)
Inductive Task : Type :=
| TEmitError (e : JSError)
| TEmitEnd
| TPushNull.

(** [stream.Readable], the base class: an external collaborator, kept at
    the granularity the wrapper reads ([_readableState.buffer], [.ended],
    [.endEmitted], [destroyed], [readableDidRead], the listeners) or
    drives (the error handed to the base [destroy], the calls of
    [_read]). *)
Record ReadableState : Type := mkRS {
  buffer : list chunk;
  ended : bool;
  endEmitted : bool;
  destroyed : bool;
  errored : option JSError;
  flowing : bool;
  readableDidRead : option bool;
    (* [None]: a Node release whose Readable has no such property *)
  highWaterMark : Z;
  listeners : list (Event * Handler);
  readCalls : nat
    (* how often [_read], the producer's callback, was invoked *)
}.

Record Stream : Type := mkStream {
  kBody : Slot;
  kDestroyed : bool;
  rs : ReadableState;
  promises : list PromiseState;
  ticks : list Task;
  microtasks : list Task
}.

(** ** Outcomes and sequencing *)

Inductive Outcome (A : Type) : Type :=
| Return (a : A) (s : Stream)
| Throw (e : JSError) (s : Stream).

Arguments Throw {A} e s.

Definition M (A : Type) : Type := Stream -> Outcome A.

Definition ret {A} (a : A) : M A := fun s => Return a s.

Definition throw {A} (e : JSError) : M A := fun s => Throw e s.

Definition bind {A B} (m : M A) (k : A -> M B) : M B :=
  fun s =>
    match m s with
    | Return a s' => k a s'
    | Throw e s' => Throw e s'
    end.

Definition get : M Stream := fun s => Return s s.

Definition modify (f : Stream -> Stream) : M unit := fun s => Return tt (f s).

(** [try { m } catch (err) { h err }] *)
Definition try_catch {A} (m : M A) (h : JSError -> M A) : M A :=
  fun s =>
    match m s with
    | Return a s' => Return a s'
    | Throw e s' => h e s'
    end.

(** A library call that returns or throws. *)
Definition lift {A} (r : JSError + A) : M A :=
  match r with
  | inl e => throw e
  | inr a => ret a
  end.

Declare Scope js_scope.
Delimit Scope js_scope with js.
Notation "x <- c1 ;; c2" := (bind c1 (fun x => c2))
  (at level 61, c1 at next level, right associativity) : js_scope.
Notation "c1 ;; c2" := (bind c1 (fun _ => c2))
  (at level 61, right associativity) : js_scope.
Local Open Scope js_scope.

Definition outcome_state {A} (o : Outcome A) : Stream :=
  match o with
  | Return _ s => s
  | Throw _ s => s
  end.

(** ** Field updates *)

Definition with_kBody (k : Slot) (s : Stream) : Stream :=
  {| kBody := k; kDestroyed := kDestroyed s; rs := rs s;
     promises := promises s; ticks := ticks s; microtasks := microtasks s |}.

Definition with_kDestroyed (b : bool) (s : Stream) : Stream :=
  {| kBody := kBody s; kDestroyed := b; rs := rs s;
     promises := promises s; ticks := ticks s; microtasks := microtasks s |}.

Definition with_rs (r : ReadableState) (s : Stream) : Stream :=
  {| kBody := kBody s; kDestroyed := kDestroyed s; rs := r;
     promises := promises s; ticks := ticks s; microtasks := microtasks s |}.

Definition with_promises (ps : list PromiseState) (s : Stream) : Stream :=
  {| kBody := kBody s; kDestroyed := kDestroyed s; rs := rs s;
     promises := ps; ticks := ticks s; microtasks := microtasks s |}.

Definition with_ticks (ts : list Task) (s : Stream) : Stream :=
  {| kBody := kBody s; kDestroyed := kDestroyed s; rs := rs s;
     promises := promises s; ticks := ts; microtasks := microtasks s |}.

Definition with_microtasks (ts : list Task) (s : Stream) : Stream :=
  {| kBody := kBody s; kDestroyed := kDestroyed s; rs := rs s;
     promises := promises s; ticks := ticks s; microtasks := ts |}.

Definition with_buffer (b : list chunk) (r : ReadableState) : ReadableState :=
  {| buffer := b; ended := ended r; endEmitted := endEmitted r;
     destroyed := destroyed r; errored := errored r; flowing := flowing r;
     readableDidRead := readableDidRead r; highWaterMark := highWaterMark r;
     listeners := listeners r; readCalls := readCalls r |}.

Definition with_ended (b : bool) (r : ReadableState) : ReadableState :=
  {| buffer := buffer r; ended := b; endEmitted := endEmitted r;
     destroyed := destroyed r; errored := errored r; flowing := flowing r;
     readableDidRead := readableDidRead r; highWaterMark := highWaterMark r;
     listeners := listeners r; readCalls := readCalls r |}.

Definition with_endEmitted (b : bool) (r : ReadableState) : ReadableState :=
  {| buffer := buffer r; ended := ended r; endEmitted := b;
     destroyed := destroyed r; errored := errored r; flowing := flowing r;
     readableDidRead := readableDidRead r; highWaterMark := highWaterMark r;
     listeners := listeners r; readCalls := readCalls r |}.

Definition with_destroyed (b : bool) (e : option JSError) (r : ReadableState)
  : ReadableState :=
  {| buffer := buffer r; ended := ended r; endEmitted := endEmitted r;
     destroyed := b; errored := e; flowing := flowing r;
     readableDidRead := readableDidRead r; highWaterMark := highWaterMark r;
     listeners := listeners r; readCalls := readCalls r |}.

Definition with_flowing (b : bool) (r : ReadableState) : ReadableState :=
  {| buffer := buffer r; ended := ended r; endEmitted := endEmitted r;
     destroyed := destroyed r; errored := errored r; flowing := b;
     readableDidRead := readableDidRead r; highWaterMark := highWaterMark r;
     listeners := listeners r; readCalls := readCalls r |}.

Definition with_didRead (d : option bool) (r : ReadableState) : ReadableState :=
  {| buffer := buffer r; ended := ended r; endEmitted := endEmitted r;
     destroyed := destroyed r; errored := errored r; flowing := flowing r;
     readableDidRead := d; highWaterMark := highWaterMark r;
     listeners := listeners r; readCalls := readCalls r |}.

Definition with_listeners (l : list (Event * Handler)) (r : ReadableState)
  : ReadableState :=
  {| buffer := buffer r; ended := ended r; endEmitted := endEmitted r;
     destroyed := destroyed r; errored := errored r; flowing := flowing r;
     readableDidRead := readableDidRead r; highWaterMark := highWaterMark r;
     listeners := l; readCalls := readCalls r |}.

Definition with_readCalls (n : nat) (r : ReadableState) : ReadableState :=
  {| buffer := buffer r; ended := ended r; endEmitted := endEmitted r;
     destroyed := destroyed r; errored := errored r; flowing := flowing r;
     readableDidRead := readableDidRead r; highWaterMark := highWaterMark r;
     listeners := listeners r; readCalls := n |}.

Definition modify_rs (f : ReadableState -> ReadableState) : M unit :=
  modify (fun s => with_rs (f (rs s)) s).

(** ** Promises *)

(** [resolve] and [reject] settle a pending promise and are ignored on a
    settled one. *)
Fixpoint settle (p : nat) (st : PromiseState) (ps : list PromiseState)
  : list PromiseState :=
  match ps, p with
  | [], _ => []
  | Pending :: rest, O => st :: rest
  | x :: rest, O => x :: rest
  | x :: rest, S p' => x :: settle p' st rest
  end.

Definition resolve (p : nat) (v : Value) : M unit :=
  modify (fun s => with_promises (settle p (Fulfilled v) (promises s)) s).

Definition reject (p : nat) (e : JSError) : M unit :=
  modify (fun s => with_promises (settle p (Rejected e) (promises s)) s).

Definition promise_state (p : nat) (s : Stream) : option PromiseState :=
  nth_error (promises s) p.

(** [new Promise(executor)]: the executor runs at once; what it throws
    rejects the promise, and the constructor returns normally. *)
Definition new_Promise (executor : nat -> M unit) : M nat :=
  s <- get ;;
  let p := List.length (promises s) in
  modify (with_promises (promises s ++ [Pending])) ;;
  try_catch (executor p) (fun e => reject p e) ;;
  ret p.

(** ** The base class: [stream.Readable]

    Node's implementation is not part of this module.  The functions below
    state what the wrapper relies on, chunk by chunk: [push] buffers a
    chunk or records the end, [destroy] marks the stream destroyed and
    reports the error on a later tick, [on] registers a listener. *)

Definition buffered_bytes (r : ReadableState) : Z :=
  fold_right (fun c n => (Z.of_nat (List.length c) + n)%Z) 0%Z (buffer r).

Definition ERR_STREAM_PUSH_AFTER_EOF : JSError :=
  {| err_name := "Error";
     err_message := "stream.push() after EOF";
     err_code := Some "ERR_STREAM_PUSH_AFTER_EOF" |}.

Definition nextTick (t : Task) : M unit :=
  modify (fun s => with_ticks (ticks s ++ [t]) s).

Definition queueMicrotask (t : Task) : M unit :=
  modify (fun s => with_microtasks (microtasks s ++ [t]) s).

(** The value [Readable.prototype.push] returns: room below the high-water
    mark, and never after the end. *)
Definition below_highWaterMark (r : ReadableState) : bool :=
  negb (ended r) &&
  ((buffered_bytes r <? highWaterMark r)%Z || (buffered_bytes r =? 0)%Z).

(** [Readable.prototype.push.call(self, val)] *)
Definition Readable_push (v : val) : M bool :=
  s <- get ;;
  let r := rs s in
  match v with
  | None =>
      (if ended r then ret tt else modify_rs (with_ended true)) ;;
      ret false
  | Some [] =>
      ret (below_highWaterMark r)
  | Some c =>
      if ended r then
        nextTick (TEmitError ERR_STREAM_PUSH_AFTER_EOF) ;;
        ret false
      else if destroyed r then ret false
      else
        modify_rs (with_buffer (buffer r ++ [c])) ;;
        s' <- get ;;
        ret (below_highWaterMark (rs s'))
  end.

(** [Readable.prototype.destroy.call(self, err)] *)
Definition Readable_destroy (err : option JSError) : M unit :=
  s <- get ;;
  if destroyed (rs s) then ret tt
  else
    modify_rs (with_destroyed true err) ;;
    match err with
    | Some e => nextTick (TEmitError e)
    | None => ret tt
    end.

(** [Readable.prototype.on.call(self, ev, fn)] *)
Definition Readable_on (ev : Event) (fn : Handler) : M unit :=
  modify_rs (fun r => with_listeners (listeners r ++ [(ev, fn)]) r) ;;
  if is_data ev then modify_rs (with_flowing true) else ret tt.

(** [Readable.prototype.resume.call(self)] *)
Definition Readable_resume : M unit :=
  modify_rs (with_flowing true).

(** [Readable.prototype.pipe.call(self, dest, pipeOpts)]: the destination
    is fed by a 'data' listener. *)
Definition Readable_pipe : M unit :=
  Readable_on EvData HPipe.

(** [self._read()]: the producer's callback, given to the constructor. *)
Definition _read : M unit :=
  modify_rs (fun r => with_readCalls (S (readCalls r)) r).

(** [Readable.prototype.read.call(self, n)]: hands out the next buffered
    chunk, or [null]; an empty stream that has not ended asks the producer
    for more. *)
Definition Readable_read : M val :=
  s <- get ;;
  let r := rs s in
  match buffer r with
  | c :: rest =>
      modify_rs (with_buffer rest) ;;
      modify_rs (fun r => with_didRead
                   (match readableDidRead r with
                    | Some _ => Some true
                    | None => None
                    end) r) ;;
      ret (Some c)
  | [] =>
      (if ended r
       then (if endEmitted r then ret tt else nextTick TEmitEnd)
       else if destroyed r then ret tt else _read) ;;
      ret None
  end.

(** [self.listenerCount(ev)] *)
Definition event_eqb (a b : Event) : bool :=
  match a, b with
  | EvData, EvData | EvReadable, EvReadable
  | EvError, EvError | EvEnd, EvEnd => true
  | EvOther x, EvOther y => String.eqb x y
  | _, _ => false
  end.

Definition listenerCount (ev : Event) (s : Stream) : nat :=
  List.length (filter (fun l => event_eqb (fst l) ev) (listeners (rs s))).

(** What [this.controller.error(...)] throws where [this] has no
    [controller] (lines 155 and 159). *)
Definition no_controller : JSError :=
  TypeError "Cannot read properties of undefined (reading 'error')".

(** ** Deferred work and events

    A listener that throws ends the emission.  [HReject] is registered for
    'error' only, which always carries the error. *)
Definition run_listener (fn : Handler) (arg : option JSError) : M unit :=
  match fn with
  | HUser _ | HPipe => ret tt
  | HControllerError => throw no_controller
  | HReject p =>
      match arg with
      | Some e => reject p e
      | None => ret tt
      end
  | HEndDestroy => Readable_destroy None
  end.

Fixpoint run_listeners (ev : Event) (arg : option JSError)
  (ls : list (Event * Handler)) : M unit :=
  match ls with
  | [] => ret tt
  | (ev', fn) :: rest =>
      (if event_eqb ev' ev then run_listener fn arg else ret tt) ;;
      run_listeners ev arg rest
  end.

(** [self.emit('error', err)]: with no listener the error is thrown. *)
Definition emit_error (e : JSError) : M unit :=
  s <- get ;;
  if Nat.eqb (listenerCount EvError s) 0 then throw e
  else run_listeners EvError (Some e) (listeners (rs s)).

(** The base stream reaches its natural end: [endEmitted] is set and 'end'
    is emitted. *)
Definition emit_end : M unit :=
  modify_rs (with_endEmitted true) ;;
  s <- get ;;
  run_listeners EvEnd None (listeners (rs s)).

Definition run_task (t : Task) : M unit :=
  match t with
  | TEmitError e => emit_error e
  | TEmitEnd => emit_end
  | TPushNull => Readable_push None ;; ret tt
  end.

(** The next [process.nextTick] callback. *)
Definition run_tick : M unit :=
  s <- get ;;
  match ticks s with
  | [] => ret tt
  | t :: rest => modify (with_ticks rest) ;; run_task t
  end.

(** The next microtask. *)
Definition run_microtask : M unit :=
  s <- get ;;
  match microtasks s with
  | [] => ret tt
  | t :: rest => modify (with_microtasks rest) ;; run_task t
  end.

(** ** Library calls of the accumulator modes

    [Buffer.prototype.toString] (the [+=] of a string and a [Buffer]),
    [JSON.parse], [Buffer.concat(body).buffer] and [new Blob(body)] are
    library calls: each returns or throws. *)
Class Primitives : Type := {
  toString : chunk -> string;
  JSON_parse : string -> JSError + JSONValue;
  Buffer_concat_buffer : AccBody -> JSError + Value;
  new_Blob : AccBody -> JSError + Value
}.

(** The receiver of a call.  [consume] is a plain function of a
    strict-mode module ('use strict', line 1) and every call site is of the
    form [consume(this, kTextType)], with no receiver: inside [consume],
    and inside the arrow functions it creates, [this] is [undefined]. *)
Inductive This : Type :=
| ThisUndefined
| ThisObject (type : option Mode).

(** [this.type] *)
Definition no_type : JSError :=
  TypeError "Cannot read properties of undefined (reading 'type')".

Definition this_type (this : This) : M (option Mode) :=
  match this with
  | ThisUndefined => throw no_type
  | ThisObject t => ret t
  end.

Definition type_is (t : option Mode) (m : Mode) : bool :=
  match t with
  | Some x => mode_eqb x m
  | None => false
  end.

(** What [consume] returns. *)
Inductive Consumed : Type :=
| RSelf
| RReadableStream
| RPromise (p : nat).

Definition acc_of_mode (m : Mode) : option AccMode :=
  match m with
  | kWebStreamType => None
  | kTextType => Some AText
  | kBlobType => Some ABlob
  | kArrayBufferType => Some AArrayBuffer
  | kJSONType => Some AJson
  end.

(** ** The module *)

Section BodyReadable.

Context `{Primitives}.

Definition is_none {A} (o : option A) : bool :=
  match o with
  | None => true
  | Some _ => false
  end.

(** [String(body)], as [+=] and [JSON.parse] coerce it. *)
Definition body_to_string (b : AccBody) : string :=
  match b with
  | BStr s => s
  | BArr l => String.concat "," (map toString l)
  | BNull => "null"
  end.

(** [get bodyUsed] (lines 87-95) *)
Definition bodyUsed (s : Stream) : bool :=
  match kBody s with
  | Obj l => lock_used l
  | k =>
      match readableDidRead (rs s) with
      | Some didRead => didRead
      | None => match k with Null => true | _ => false end
      end
  end.

(** [destroy (err)] (lines 33-45) *)
Definition destroy (err : option JSError) : M unit :=
  s <- get ;;
  if kDestroyed s then ret tt
  else
    let err :=
      if truthy (kBody s) && is_none err && negb (endEmitted (rs s))
      then Some AbortError
      else err in
    modify (with_kDestroyed true) ;;
    Readable_destroy err.

(** [push (val)] of the pull-stream lock (lines 170-201); [this] is the
    lock object, which sits in [self[kBody]].  With no controller,
    [this.buffer.push(val)] is [self.push(val)], which calls this very
    method again with nothing changed: the engine ends the recursion with
    a [RangeError]. *)
Definition web_push (controller : option Controller.t) (v : val) : M bool :=
  s <- get ;;
  if destroyed (rs s) then ret false
  else
    modify (with_kBody (Obj (WebLock true controller))) ;;
    match controller with
    | None => throw (RangeError "Maximum call stack size exceeded")
    | Some c =>
        c' <- match v with
              | None =>
                  c' <- lift (Controller.close c) ;;
                  modify (with_kBody (Obj (WebLock true (Some c')))) ;;
                  queueMicrotask TPushNull ;;
                  ret c'
              | Some b =>
                  c' <- lift (Controller.enqueue (Uint8Array b) c) ;;
                  modify (with_kBody (Obj (WebLock true (Some c')))) ;;
                  ret c'
              end ;;
        ret (Controller.desiredSize_gt0 c')
    end.

(** The [try] block of the accumulator lock's [push] (lines 246-265). *)
Definition accumulate (type : AccMode) (body : AccBody) (promise : nat)
  (v : val) : M unit :=
  match type with
  | AText | AJson =>
      match v with
      | Some b =>
          modify (with_kBody (Obj (AccLock type true
            (BStr (String.append (body_to_string body) (toString b))) promise)))
      | None =>
          match type with
          | AText => resolve promise (VBody body)
          | _ =>
              j <- lift (JSON_parse (body_to_string body)) ;;
              resolve promise (VJson j)
          end
      end
  | ABlob | AArrayBuffer =>
      match v with
      | Some b =>
          match body with
          | BArr l =>
              modify (with_kBody (Obj (AccLock type true (BArr (l ++ [b])) promise)))
          | BStr _ => throw (TypeError "this.body.push is not a function")
          | BNull =>
              throw (TypeError "Cannot read properties of null (reading 'push')")
          end
      | None =>
          match type with
          | AArrayBuffer =>
              x <- lift (Buffer_concat_buffer body) ;;
              resolve promise x
          | _ =>
              x <- lift (new_Blob body) ;;
              resolve promise x
          end
      end
  end.

(** [push (val)] of an accumulator lock (lines 238-277). *)
Definition acc_push (type : AccMode) (body : AccBody) (promise : nat)
  (v : val) : M bool :=
  s <- get ;;
  if destroyed (rs s) then ret false
  else
    modify (with_kBody (Obj (AccLock type true body promise))) ;;
    ok <- try_catch
            (accumulate type body promise v ;; ret true)
            (fun err => destroy (Some err) ;; ret false) ;;
    if ok : bool then
      match v with
      | None =>
          modify (with_kBody (Obj (AccLock type true BNull promise))) ;;
          Readable_push None ;;
          ret true
      | Some _ => ret true
      end
    else ret false.

(** [self[kBody].push(val)] *)
Definition lock_push (v : val) : M bool :=
  s <- get ;;
  match kBody s with
  | Obj (WebLock _ controller) => web_push controller v
  | Obj (AccLock type _ body promise) => acc_push type body promise v
  | Null => throw (TypeError "Cannot read properties of null (reading 'push')")
  | Undefined =>
      throw (TypeError "Cannot read properties of undefined (reading 'push')")
  end.

(** [push (val)] (lines 47-53) *)
Definition push (v : val) : M bool :=
  s <- get ;;
  if truthy (kBody s) then lock_push v else Readable_push v.

(** The loop of [start] (lines 122-124).  Every turn shifts one chunk off
    [state.buffer]; [n] bounds the turns. *)
Fixpoint drain (n : nat) : M unit :=
  match n with
  | O => ret tt
  | S n' =>
      s <- get ;;
      match buffer (rs s) with
      | [] => ret tt
      | c :: rest =>
          modify_rs (with_buffer rest) ;;
          lock_push (Some c) ;;
          drain n'
      end
  end.

(** [start (self)] (lines 118-130) *)
Definition start : M unit :=
  s <- get ;;
  (if Nat.eqb (listenerCount EvData s) 0 then ret tt else throw AssertionError) ;;
  drain (List.length (buffer (rs s))) ;;
  s' <- get ;;
  (if ended (rs s') then lock_push None ;; ret tt else ret tt) ;;
  _read.

(** [consume] and [on] call each other: [on] calls [consume(this)] with no
    type, and [consume] with a type calls [self.on].  [consume_gate] is
    the path of [consume] that [on] takes, [if (!type) { self[kBody] =
    null; return self }] behind the two guards of lines 133-139. *)
Definition consume_gate : M Consumed :=
  s <- get ;;
  if bodyUsed s then throw (TypeError "disturbed")
  else if truthy (kBody s) then throw (TypeError "locked")
  else modify (with_kBody Null) ;; ret RSelf.

(** [on (ev, fn)] (lines 76-81) *)
Definition on (ev : Event) (fn : Handler) : M unit :=
  s <- get ;;
  (if match kBody s with Undefined => true | _ => false end
      && is_data_or_readable ev
   then consume_gate ;; ret tt
   else ret tt) ;;
  Readable_on ev fn.

(** [start (controller)] of the underlying source (lines 152-205).  The
    [this] of this method, and of the arrow function it registers for
    'error', is the underlying source object [{ start, pull, cancel }],
    which has no [controller] property: [this.controller.error(...)]
    throws. *)
Definition source_start (controller : Controller.t) : M unit :=
  s <- get ;;
  (if truthy (kBody s) then throw no_controller
   else
     on EvError HControllerError ;;
     on EvEnd HEndDestroy ;;
     modify (with_kBody (Obj (WebLock false (Some controller))))) ;;
  start.

(** [new ReadableStream({ start, pull, cancel }, { highWaterMark })]: the
    constructor calls [start] with the new controller. *)
Definition new_ReadableStream : M Consumed :=
  source_start Controller.fresh ;;
  ret RReadableStream.

(** The executor given to [new Promise] (lines 227-281). *)
Definition executor (this : This) (type : AccMode) (promise : nat) : M unit :=
  on EvError (HReject promise) ;;
  on EvEnd HEndDestroy ;;
  t1 <- this_type this ;;
  body <- (if type_is t1 kTextType then ret (BStr "")
           else
             t2 <- this_type this ;;
             ret (if type_is t2 kJSONType then BStr "" else BArr [])) ;;
  modify (with_kBody (Obj (AccLock type false body promise))) ;;
  start.

(** [consume (self, type)] (lines 132-282); [this] is the receiver the
    call supplies. *)
Definition consume (this : This) (type : option Mode) : M Consumed :=
  s <- get ;;
  if bodyUsed s then throw (TypeError "disturbed")
  else if truthy (kBody s) then throw (TypeError "locked")
  else
    match type with
    | None => modify (with_kBody Null) ;; ret RSelf
    | Some t =>
        match acc_of_mode t with
        | None => new_ReadableStream
        | Some a =>
            p <- new_Promise (executor this a) ;;
            ret (RPromise p)
        end
    end.

(** The methods of the class; each calls [consume] without a receiver. *)

Definition read : M val :=
  s <- get ;;
  (match kBody s with
   | Undefined => consume ThisUndefined None ;; ret tt
   | _ => ret tt
   end) ;;
  Readable_read.

Definition resume : M unit :=
  s <- get ;;
  (match kBody s with
   | Undefined => consume ThisUndefined None ;; ret tt
   | _ => ret tt
   end) ;;
  Readable_resume.

Definition pipe : M unit :=
  s <- get ;;
  (match kBody s with
   | Undefined => consume ThisUndefined None ;; ret tt
   | _ => ret tt
   end) ;;
  Readable_pipe.

Definition addListener (ev : Event) (fn : Handler) : M unit := on ev fn.

Definition body : M Consumed := consume ThisUndefined (Some kWebStreamType).
Definition text : M Consumed := consume ThisUndefined (Some kTextType).
Definition json : M Consumed := consume ThisUndefined (Some kJSONType).
Definition blob : M Consumed := consume ThisUndefined (Some kBlobType).
Definition arrayBuffer : M Consumed :=
  consume ThisUndefined (Some kArrayBufferType).

(** [pull ()] and [cancel (reason)] of the underlying source. *)
Inductive Reason : Type :=
| ReasonError (e : JSError)
| ReasonString (s : string)
| ReasonOther.

Definition pull : M unit := _read.

Definition cancel (reason : Reason) : M unit :=
  let err :=
    match reason with
    | ReasonError e => e
    | ReasonString s => Error s
    | ReasonOther => AbortError
    end in
  destroy (Some err).

(** The consumer of the pull stream takes one chunk off the controller's
    queue. *)
Definition consumer_read : M unit :=
  s <- get ;;
  match kBody s with
  | Obj (WebLock used (Some c)) =>
      modify (with_kBody (Obj (WebLock used (Some (Controller.dequeue c)))))
  | _ => ret tt
  end.

(** The base stream emits 'end' once it has ended and its buffer is empty. *)
Definition natural_end : M unit :=
  s <- get ;;
  if ended (rs s) && negb (endEmitted (rs s))
     && match buffer (rs s) with [] => true | _ => false end
  then emit_end
  else ret tt.

(** ** The life of one object

    Everything that can happen to a [BodyReadable]: the calls of the
    producer and of the consumer, and the deferred work of the event
    loop. *)
Inductive Op : Type :=
| OPush (v : val)
| ODestroy (err : option JSError)
| ORead
| OResume
| OPipe
| OOn (ev : Event) (listener : nat)
| OAddListener (ev : Event) (listener : nat)
| OBody
| OText
| OJson
| OBlob
| OArrayBuffer
| OPull
| OCancel (reason : Reason)
| OConsumerRead
| ONaturalEnd
| OTick
| OMicrotask.

Definition discard {A} (m : M A) : M unit := m ;; ret tt.

Definition step (op : Op) : M unit :=
  match op with
  | OPush v => discard (push v)
  | ODestroy err => destroy err
  | ORead => discard read
  | OResume => resume
  | OPipe => pipe
  | OOn ev n => on ev (HUser n)
  | OAddListener ev n => addListener ev (HUser n)
  | OBody => discard body
  | OText => discard text
  | OJson => discard json
  | OBlob => discard blob
  | OArrayBuffer => discard arrayBuffer
  | OPull => pull
  | OCancel reason => cancel reason
  | OConsumerRead => consumer_read
  | ONaturalEnd => natural_end
  | OTick => run_tick
  | OMicrotask => run_microtask
  end.

(** A thrown exception ends the call, not the object. *)
Fixpoint run (ops : list Op) (s : Stream) : Stream :=
  match ops with
  | [] => s
  | op :: rest => run rest (outcome_state (step op s))
  end.

End BodyReadable.

(** [new BodyReadable(opts)] (lines 27-31); [didRead] is the initial
    [readableDidRead] of the Node release at hand, [None] where the
    property does not exist. *)
Definition new_BodyReadable (didRead : option bool) : Stream :=
  {| kBody := Undefined;
     kDestroyed := false;
     rs := {| buffer := []; ended := false; endEmitted := false;
              destroyed := false; errored := None; flowing := false;
              readableDidRead := didRead; highWaterMark := 16 * 1024;
              listeners := []; readCalls := 0 |};
     promises := [];
     ticks := [];
     microtasks := [] |}.

(** ** Library calls for the examples

    Text is held UTF-8 encoded, so decoding well-formed input keeps the
    bytes.  The parser knows the three literals. *)
Definition SyntaxError (msg : string) : JSError :=
  {| err_name := "SyntaxError"; err_message := msg; err_code := None |}.

Definition utf8 (c : chunk) : string := string_of_list_byte c.

Definition parse_literal (s : string) : JSError + JSONValue :=
  if String.eqb s "null" then inr JNull
  else if String.eqb s "true" then inr (JBool true)
  else if String.eqb s "false" then inr (JBool false)
  else inl (SyntaxError "Unexpected token in JSON").

Definition concat_chunks (b : AccBody) : JSError + Value :=
  match b with
  | BArr l => inr (VArrayBuffer (List.concat l))
  | _ => inl (TypeError "The list argument must be an instance of Array")
  end.

Definition blob_of (b : AccBody) : JSError + Value :=
  match b with
  | BArr l => inr (VBlob l)
  | _ => inl (TypeError "The sources argument must be a sequence")
  end.

Definition example_primitives : Primitives :=
  {| toString := utf8;
     JSON_parse := parse_literal;
     Buffer_concat_buffer := concat_chunks;
     new_Blob := blob_of |}.

Definition bytes (s : string) : chunk := list_byte_of_string s.

(** ** Concrete streams used below *)

Section ConcreteStreams.

#[local] Existing Instance example_primitives.

(** A stream whose body was requested as a pull stream and that was then
    handed one chunk. *)
Definition pulled_then_fed : Stream :=
  run [OBody; OPush (Some (bytes "ab"))] (new_BodyReadable (Some false)).

(** Its controller: one chunk queued. *)
Definition one_chunk_queued : Controller.t :=
  {| Controller.queue := [bytes "ab"];
     Controller.closeRequested := false;
     Controller.state := Controller.SReadable |}.

(** A stream consumed through the legacy gate ([resume]), nothing read. *)
Definition gated (didRead : option bool) : Stream :=
  run [OResume] (new_BodyReadable didRead).

(** The same, destroyed afterwards. *)
Definition gated_destroyed : Stream :=
  run [OResume; ODestroy None] (new_BodyReadable (Some false)).

(** A stream holding a backlog of two chunks and the end. *)
Definition backlogged : Stream :=
  run [OPush (Some (bytes "ab")); OPush (Some (bytes "cd")); OPush None]
    (new_BodyReadable (Some false)).

(** A stream with the pull-stream lock installed, destroyed with no
    error before its end. *)
Definition pulled_then_destroyed : Stream :=
  run [OBody; ODestroy None] (new_BodyReadable (Some false)).

(** The stream [consume] leaves when it is given a receiver whose [type]
    is [kTextType]: the text lock is installed. *)
Definition text_lock_installed : Stream :=
  outcome_state
    (consume (ThisObject (Some kTextType)) (Some kTextType)
       (new_BodyReadable (Some false))).

(** The same for [kJSONType]. *)
Definition json_lock_installed : Stream :=
  outcome_state
    (consume (ThisObject (Some kJSONType)) (Some kJSONType)
       (new_BodyReadable (Some false))).

(** A stream consumed as a pull stream whose producer has pushed the end
    sentinel; the microtask of that push has not run. *)
Definition pulled_ended : Stream :=
  run [OBody; OPush None] (new_BodyReadable (Some false)).

(** Its controller: closed, nothing queued. *)
Definition closed_empty : Controller.t :=
  {| Controller.queue := [];
     Controller.closeRequested := true;
     Controller.state := Controller.SClosed |}.

(** A stream with a 'data' listener, nothing read. *)
Definition listening : Stream :=
  run [OOn EvData 0] (new_BodyReadable (Some false)).

(** A stream with one buffered chunk, destroyed before any consumption. *)
Definition backlogged_destroyed : Stream :=
  run [OPush (Some (bytes "ab")); ODestroy None]
    (new_BodyReadable (Some false)).

(** A stream consumed as a pull stream. *)
Definition pulled : Stream :=
  run [OBody] (new_BodyReadable (Some false)).

(** The same after the end sentinel and its microtask. *)
Definition pulled_to_end : Stream :=
  run [OBody; OPush None; OMicrotask] (new_BodyReadable (Some false)).

(** A backlog of two chunks, then a 'data' listener, nothing read yet. *)
Definition backlogged_listening : Stream :=
  run [OPush (Some (bytes "ab")); OPush (Some (bytes "cd")); OOn EvData 0]
    (new_BodyReadable (Some false)).

(** The chunks [{"a":] and [1}]. *)
Definition chunk_open_a : chunk := [x7b; x22; x61; x22; x3a]%byte.
Definition chunk_1_close : chunk := [x31; x7d]%byte.

End ConcreteStreams.

(** ** Vocabulary of the properties *)

(** The stream [text], [json], [blob] and [arrayBuffer] leave behind: the
    two listeners are registered, the promise is rejected, [kBody] is
    untouched. *)
Definition after_failed_executor (s : Stream) : Stream :=
  with_promises (promises s ++ [Rejected no_type])
    (with_rs (with_listeners
                (listeners (rs s) ++
                 [(EvError, HReject (List.length (promises s)));
                  (EvEnd, HEndDestroy)]) (rs s)) s).

(** Pushes on a stream without a lock reach the base stream only. *)
Definition unlocked_with (ps : list PromiseState) (s : Stream) : Prop :=
  kBody s = Undefined /\ kDestroyed s = false /\
  destroyed (rs s) = false /\ promises s = ps.

(** The producer's calls for a body: the chunks, then the end sentinel. *)
Definition produce (chunks : list chunk) : list Op :=
  map OPush (map Some chunks ++ [None]).

(** An operation preserves [P] when [P] holds of the state it leaves,
    whether it returns or throws. *)
Definition preserves {A} (P : Stream -> Prop) (m : M A) : Prop :=
  forall s, P s -> P (outcome_state (m s)).

(** What identifies a lock object: its mode and, for an accumulator, its
    promise. *)
Definition lock_id (l : Lock) : Mode * option nat :=
  match l with
  | WebLock _ _ => (kWebStreamType, None)
  | AccLock a _ _ p => (AccMode_type a, Some p)
  end.

Definition has_lock (id : Mode * option nat) (s : Stream) : Prop :=
  exists l, kBody s = Obj l /\ lock_id l = id.

(** The controller after the chunks were enqueued, in this order. *)
Definition enqueue_all (c : Controller.t) (chunks : list chunk)
  : Controller.t :=
  {| Controller.queue := Controller.queue c ++ map Uint8Array chunks;
     Controller.closeRequested := Controller.closeRequested c;
     Controller.state := Controller.state c |}.

(** Two states that differ at most in the lock and in [state.buffer]. *)
Definition same_outside_lock (s s' : Stream) : Prop :=
  kDestroyed s' = kDestroyed s /\ promises s' = promises s /\
  ticks s' = ticks s /\ microtasks s' = microtasks s /\
  with_buffer [] (rs s') = with_buffer [] (rs s).

(** The stream [body] has prepared when it calls [start]: the two
    listeners are registered and the lock holds the new controller. *)
Definition pull_stream_installed (s : Stream) : Stream :=
  with_kBody (Obj (WebLock false (Some Controller.fresh)))
    (with_rs (with_listeners
                (listeners (rs s) ++
                 [(EvError, HControllerError); (EvEnd, HEndDestroy)])
                (rs s)) s).

(** [s'] can follow [s] in the life of one object: the flags that are set
    stay set, the error of a destroyed stream stays the one recorded,
    [kDestroyed] is only ever set along with the base stream's
    [destroyed], and a settled promise keeps its state. *)
Definition follows (s s' : Stream) : Prop :=
  (kDestroyed s = true -> kDestroyed s' = true) /\
  (destroyed (rs s) = true -> destroyed (rs s') = true) /\
  (ended (rs s) = true -> ended (rs s') = true) /\
  (endEmitted (rs s) = true -> endEmitted (rs s') = true) /\
  (destroyed (rs s) = true -> errored (rs s') = errored (rs s)) /\
  (kDestroyed s' = true -> kDestroyed s = true \/ destroyed (rs s') = true) /\
  (forall p st, promise_state p s = Some st -> st <> Pending ->
                promise_state p s' = Some st).

Definition advances {A} (m : M A) : Prop :=
  forall s, follows s (outcome_state (m s)).

(** A lock object through which a chunk or the end has gone. *)
Definition has_used_lock (id : Mode * option nat) (s : Stream) : Prop :=
  exists l, kBody s = Obj l /\ lock_id l = id /\ lock_used l = true.

(** The error [cancel] makes of its reason (lines 212-220). *)
Definition cancel_error (reason : Reason) : JSError :=
  match reason with
  | ReasonError e => e
  | ReasonString msg => Error msg
  | ReasonOther => AbortError
  end.

Definition handler_is_controller_error (fn : Handler) : bool :=
  match fn with
  | HControllerError => true
  | _ => false
  end.

Definition handler_is_end_destroy (fn : Handler) : bool :=
  match fn with
  | HEndDestroy => true
  | _ => false
  end.

(** Whether the listeners hold the 'end' listener of the module, which
    destroys the base stream. *)
Definition tears_down (ls : list (Event * Handler)) : bool :=
  existsb (fun l => match l with
                    | (EvEnd, HEndDestroy) => true
                    | _ => false
                    end) ls.

(** The stream went through [consume] at least once: [kBody] is [null] or
    a lock object. *)
Definition consumed (s : Stream) : Prop := kBody s <> Undefined.

(** [kBody] is not the lock object of [text], [json], [blob] or
    [arrayBuffer]. *)
Definition no_accumulator_lock (s : Stream) : Prop :=
  match kBody s with
  | Obj (AccLock _ _ _ _) => False
  | _ => True
  end.

(** No listener of the event is the pull stream's 'error' listener. *)
Definition no_throwing_listener (ev : Event) (ls : list (Event * Handler))
  : Prop :=
  forall fn, In (ev, fn) ls -> fn <> HControllerError.

Section Vocabulary.

Context `{Primitives}.

Definition returns {A} (r : JSError + A) : bool :=
  match r with
  | inl _ => false
  | inr _ => true
  end.

(** Whether accumulating [v] onto [body] goes through, that is, whether
    the [try] block of the accumulator's [push] runs to its end: appending
    to a string always does, appending to [body] needs an array, and the
    end sentinel needs the library call of the mode to return. *)
Definition accumulates (type : AccMode) (body : AccBody) (v : val) : bool :=
  match type, v with
  | (AText | AJson), Some _ => true
  | AText, None => true
  | AJson, None => returns (JSON_parse (body_to_string body))
  | (ABlob | AArrayBuffer), Some _ =>
      match body with BArr _ => true | _ => false end
  | AArrayBuffer, None => returns (Buffer_concat_buffer body)
  | ABlob, None => returns (new_Blob body)
  end.

(** Draining in the words of the specification: every chunk of the
    backlog, oldest first, is taken off the base stream and handed to the
    lock's [push]. *)
Fixpoint deliver (backlog : list chunk) : M unit :=
  match backlog with
  | [] => ret tt
  | c :: rest =>
      modify_rs (with_buffer rest) ;;
      lock_push (Some c) ;;
      deliver rest
  end.

End Vocabulary.

Unset Implicit Arguments.

(** * Properties *)

Section Properties.

Context `{Primitives}.

Ltac run_m := unfold bind, get, modify, ret, throw, try_catch, lift; simpl.

(** ** The guards of [consume] *)

Lemma consume_no_type (this : This) (s : Stream) :
  consume this None s = consume_gate s.
Proof. reflexivity. Qed.

Lemma bodyUsed_lock (s : Stream) (l : Lock) :
  kBody s = Obj l -> bodyUsed s = lock_used l.
Proof. intros Hk. unfold bodyUsed. now rewrite Hk. Qed.

Lemma consume_when_used (this : This) (type : option Mode) (s : Stream) :
  bodyUsed s = true ->
  consume this type s = Throw (TypeError "disturbed") s.
Proof.
  intros Hused. unfold consume. run_m. now rewrite Hused.
Qed.

Lemma consume_when_locked (this : This) (type : option Mode)
  (s : Stream) (l : Lock) :
  kBody s = Obj l ->
  consume this type s =
    Throw (TypeError (if lock_used l then "disturbed" else "locked")) s.
Proof.
  intros Hk. unfold consume. run_m.
  rewrite (bodyUsed_lock s l Hk), Hk. simpl.
  now destruct (lock_used l).
Qed.

(** C9: a consumption attempt made while [bodyUsed] is true, in any mode
    or in none, throws [TypeError('disturbed')] and leaves the object as
    it was. *)
Theorem consume_disturbed (this : This) (type : option Mode) (s : Stream) :
  bodyUsed s = true ->
  consume this type s = Throw (TypeError "disturbed") s.
Proof.
  intros Hused. unfold consume, bind, get.
  rewrite Hused. reflexivity.
Qed.

(** C3, as the code has it: while a lock object is installed, every
    further call of [consume], in any mode or in none, throws at once and
    changes nothing; the error is 'locked' as long as nothing went through
    the lock, and 'disturbed' once a chunk or the end did. *)
Theorem second_consume_fails (this : This) (type : option Mode)
  (s : Stream) (l : Lock) :
  kBody s = Obj l ->
  consume this type s =
    Throw (TypeError (if lock_used l then "disturbed" else "locked")) s.
Proof.
  intros Hk. unfold consume, bind, get.
  assert (Hused : bodyUsed s = lock_used l) by (unfold bodyUsed; now rewrite Hk).
  rewrite Hused, Hk.
  destruct (lock_used l); reflexivity.
Qed.

(** ** The locks' [push] *)

Lemma Readable_destroy_returns (err : option JSError) (s : Stream) :
  exists s', Readable_destroy err s = Return tt s'.
Proof.
  unfold Readable_destroy. run_m.
  destruct (destroyed (rs s)); [now eexists|].
  destruct err; now eexists.
Qed.

Lemma destroy_returns (err : option JSError) (s : Stream) :
  exists s', destroy err s = Return tt s'.
Proof.
  unfold destroy. run_m.
  destruct (kDestroyed s); [now eexists|].
  apply Readable_destroy_returns.
Qed.

Lemma push_lock (v : val) (s : Stream) (l : Lock) :
  kBody s = Obj l -> push v s = lock_push v s.
Proof. intros Hk. unfold push. run_m. now rewrite Hk. Qed.

Lemma lock_push_after_destroy (v : val) (s : Stream) (l : Lock) :
  kBody s = Obj l ->
  destroyed (rs s) = true ->
  lock_push v s = Return false s.
Proof.
  intros Hk Hd. unfold lock_push. run_m. rewrite Hk.
  destruct l as [used c | type used b p].
  - unfold web_push. run_m. now rewrite Hd.
  - unfold acc_push. run_m. now rewrite Hd.
Qed.

(** C8, as the code has it: with a lock object installed (pull stream,
    text, json, blob or arrayBuffer), a push on a destroyed stream returns
    [false] and changes nothing: not the accumulator, not the controller,
    not the base stream.  After the legacy gate there is no lock object,
    and [push] is the base stream's [push]. *)
Theorem push_after_destroy (v : val) (s : Stream) :
  (forall l, kBody s = Obj l -> destroyed (rs s) = true ->
             push v s = Return false s) /\
  (kBody s = Null -> push v s = Readable_push v s).
Proof.
  split.
  - intros l Hk Hd. rewrite (push_lock v s l Hk).
    exact (lock_push_after_destroy v s l Hk Hd).
  - intros Hk. unfold push. run_m. now rewrite Hk.
Qed.

(** C6: in pull-stream mode, on a stream that is not destroyed and whose
    lock has its controller, pushing a chunk hands a [Uint8Array] copy of
    it to [controller.enqueue].  While the controller is open (readable,
    no close requested) the copy is appended to the controller's queue and
    [push] returns whether the controller's desired size, read after the
    call, is greater than zero.  Once it is not, after [push(null)] say,
    [enqueue] throws its [TypeError] and so does [push]: nothing is
    enqueued and nothing returned. *)
Theorem push_chunk_pull_stream (b : chunk) (s : Stream) (used : bool)
  (c : Controller.t) :
  kBody s = Obj (WebLock used (Some c)) ->
  destroyed (rs s) = false ->
  (Controller.canCloseOrEnqueue c = true ->
   exists c',
     Controller.enqueue (Uint8Array b) c = inr c' /\
     push (Some b) s =
       Return (Controller.desiredSize_gt0 c')
              (with_kBody (Obj (WebLock true (Some c'))) s) /\
     Controller.queue c' = Controller.queue c ++ [Uint8Array b] /\
     (Controller.desiredSize_gt0 c' = true <->
      exists d, Controller.desiredSize c' = Some d /\ (0 < d)%Z))
  /\ (Controller.canCloseOrEnqueue c = false ->
      push (Some b) s =
        Throw Controller.invalid_state
              (with_kBody (Obj (WebLock true (Some c))) s)).
Proof.
  intros Hk Hd.
  assert (Hpush : push (Some b) s = web_push (Some c) (Some b) s).
  { rewrite (push_lock (Some b) s _ Hk). unfold lock_push. run_m.
    now rewrite Hk. }
  split; intros Hopen.
  - assert (Henq : Controller.enqueue (Uint8Array b) c =
                   inr {| Controller.queue :=
                            Controller.queue c ++ [Uint8Array b];
                          Controller.closeRequested :=
                            Controller.closeRequested c;
                          Controller.state := Controller.state c |}).
    { unfold Controller.enqueue. now rewrite Hopen. }
    eexists. split; [exact Henq|]. split; [|split].
    + rewrite Hpush. unfold web_push. run_m. rewrite Hd, Henq. reflexivity.
    + reflexivity.
    + unfold Controller.desiredSize_gt0.
      match goal with
      | |- context [Controller.desiredSize ?x] =>
          destruct (Controller.desiredSize x) as [d|]
      end.
      * rewrite Z.ltb_lt. split.
        -- intros Hlt. now exists d.
        -- intros [d' [Heq Hlt]]. now injection Heq as ->.
      * split; [discriminate|]. now intros [d [Heq _]].
  - assert (Henq : Controller.enqueue (Uint8Array b) c =
                   inl Controller.invalid_state).
    { unfold Controller.enqueue. now rewrite Hopen. }
    rewrite Hpush. unfold web_push. run_m. rewrite Hd, Henq. reflexivity.
Qed.

Lemma accumulate_accumulates (type : AccMode) (b : AccBody) (p : nat)
  (v : val) (s : Stream) :
  match accumulate type b p v s with
  | Return _ _ => accumulates type b v = true
  | Throw _ _ => accumulates type b v = false
  end.
Proof.
  unfold accumulate, accumulates, resolve. run_m.
  destruct type, v as [c|]; simpl; try reflexivity;
    try (destruct b; reflexivity).
  - destruct (JSON_parse (body_to_string b)); reflexivity.
  - destruct (new_Blob b); reflexivity.
  - destruct (Buffer_concat_buffer b); reflexivity.
Qed.

(** The [push] of the accumulator lock (lines 238-277), taken by itself:
    it never throws, and it returns [true] exactly when the stream is not
    destroyed and accumulating goes through.  No call of the module
    installs this lock (see below). *)
Lemma acc_push_returns (v : val) (s : Stream) (type : AccMode)
  (used : bool) (b : AccBody) (p : nat) :
  kBody s = Obj (AccLock type used b p) ->
  exists s',
    push v s =
      Return (negb (destroyed (rs s)) && accumulates type b v) s'.
Proof.
  intros Hk. rewrite (push_lock v s _ Hk).
  unfold lock_push. run_m. rewrite Hk.
  unfold acc_push. run_m.
  destruct (destroyed (rs s)) eqn:Hd; [now exists s|]. simpl.
  pose proof (accumulate_accumulates type b p v
                (with_kBody (Obj (AccLock type true b p)) s)) as Hacc.
  destruct (accumulate type b p v
              (with_kBody (Obj (AccLock type true b p)) s)) as [[] s2|e s2].
  - rewrite Hacc. destruct v as [c|]; [now exists s2|].
    unfold Readable_push. run_m.
    destruct (ended (rs s2)); now eexists.
  - rewrite Hacc. destruct (destroy_returns (Some e) s2) as [s3 Hs3].
    rewrite Hs3. now exists s3.
Qed.

(** ** The accumulator modes never get their lock *)

Lemma settle_new (ps : list PromiseState) (st : PromiseState) :
  settle (List.length ps) st (ps ++ [Pending]) = ps ++ [st].
Proof.
  induction ps as [|x ps IH]; simpl; [reflexivity|].
  rewrite IH. now destruct x.
Qed.

Lemma accumulator_consume_rejects (a : AccMode) (s : Stream) :
  bodyUsed s = false ->
  truthy (kBody s) = false ->
  consume ThisUndefined (Some (AccMode_type a)) s =
    Return (RPromise (List.length (promises s))) (after_failed_executor s).
Proof.
  intros Hused Hk. unfold consume. run_m. rewrite Hused, Hk.
  replace (acc_of_mode (AccMode_type a)) with (Some a) by now destruct a.
  unfold new_Promise, executor, on, Readable_on, modify_rs, reject. run_m.
  destruct (kBody s) eqn:Hkb; [| |discriminate]; simpl;
    rewrite ?Hkb; simpl; rewrite settle_new;
    unfold after_failed_executor, with_promises, with_rs, with_listeners;
    simpl; now rewrite <- app_assoc.
Qed.

Lemma push_unlocked (ps : list PromiseState) (v : val) (s : Stream) :
  unlocked_with ps s -> unlocked_with ps (outcome_state (push v s)).
Proof.
  intros (Hk & Hkd & Hd & Hp). unfold push. run_m. rewrite Hk. simpl.
  unfold unlocked_with, Readable_push, modify_rs, nextTick. run_m.
  destruct v as [[|b c]|]; simpl; auto;
    destruct (ended (rs s)); simpl; auto.
  rewrite Hd. simpl. auto.
Qed.

Lemma pushes_unlocked (ps : list PromiseState) (vs : list val) (s : Stream) :
  unlocked_with ps s ->
  unlocked_with ps (run (map OPush vs) s).
Proof.
  revert s. induction vs as [|v vs IH]; intros s Hs; simpl; [exact Hs|].
  apply IH. unfold discard. run_m.
  pose proof (push_unlocked ps v s Hs) as Hv.
  destruct (push v s); exact Hv.
Qed.

(** C1, on the code: [text()] on a new stream returns a promise that is
    already rejected with the [TypeError] of [this.type], and installs no
    lock; whatever chunks and end sentinel follow are buffered by the base
    stream, and the promise stays rejected: it does not resolve with the
    decoded text. *)
Theorem text_promise_rejected (modern : bool) (chunks : list chunk) :
  let s0 := new_BodyReadable (if modern then Some false else None) in
  let s1 := after_failed_executor s0 in
  let s2 := run (produce chunks) s1 in
  text s0 = Return (RPromise 0) s1 /\
  promise_state 0 s2 = Some (Rejected no_type) /\
  kBody s2 = Undefined.
Proof.
  intros s0 s1 s2. split.
  - apply (accumulator_consume_rejects AText); now destruct modern.
  - assert (Hs1 : unlocked_with [Rejected no_type] s1) by now destruct modern.
    destruct (pushes_unlocked _ (map Some chunks ++ [None]) _ Hs1)
      as (Hk & _ & _ & Hp).
    fold (produce chunks) in Hk, Hp. fold s2 in Hk, Hp.
    unfold promise_state. now rewrite Hp.
Qed.

(** C2, on the code: [json()] on a new stream returns a promise that is
    already rejected with the [TypeError] of [this.type]; the chunks and
    the end sentinel that follow are never parsed, the promise does not
    resolve, and the stream is not destroyed. *)
Theorem json_promise_rejected (modern : bool) (chunks : list chunk) :
  let s0 := new_BodyReadable (if modern then Some false else None) in
  let s1 := after_failed_executor s0 in
  let s2 := run (produce chunks) s1 in
  json s0 = Return (RPromise 0) s1 /\
  promise_state 0 s2 = Some (Rejected no_type) /\
  kBody s2 = Undefined /\
  kDestroyed s2 = false /\
  destroyed (rs s2) = false.
Proof.
  intros s0 s1 s2. split.
  - apply (accumulator_consume_rejects AJson); now destruct modern.
  - assert (Hs1 : unlocked_with [Rejected no_type] s1) by now destruct modern.
    destruct (pushes_unlocked _ (map Some chunks ++ [None]) _ Hs1)
      as (Hk & Hkd & Hd & Hp).
    fold (produce chunks) in Hk, Hkd, Hd, Hp. fold s2 in Hk, Hkd, Hd, Hp.
    unfold promise_state. rewrite Hp. auto.
Qed.

(** C10, on the code: [text()], [json()], [blob()] and [arrayBuffer()] on
    a new stream return a rejected promise and install no lock (the slip
    of C1 and C2, line 237), so the [push] of the accumulator modes is
    never reached: every push of the producer is the base class's, which
    reports backpressure, and the push of the end sentinel returns
    [false], not [true]. *)
Theorem accumulator_push_not_reached (modern : bool) (a : AccMode)
  (chunks : list chunk) :
  let s0 := new_BodyReadable (if modern then Some false else None) in
  let s1 := after_failed_executor s0 in
  let s2 := run (map OPush (map Some chunks)) s1 in
  consume ThisUndefined (Some (AccMode_type a)) s0 =
    Return (RPromise 0) s1 /\
  kBody s2 = Undefined /\
  (forall v, push v s2 = Readable_push v s2) /\
  exists s3, push None s2 = Return false s3.
Proof.
  intros s0 s1 s2.
  assert (Hs1 : unlocked_with [Rejected no_type] s1) by now destruct modern.
  destruct (pushes_unlocked _ (map Some chunks) _ Hs1) as (Hk & _).
  fold s2 in Hk.
  assert (Hpush : forall v, push v s2 = Readable_push v s2).
  { intros v. unfold push. run_m. now rewrite Hk. }
  split; [|split; [exact Hk|split; [exact Hpush|]]].
  - apply (accumulator_consume_rejects a); now destruct modern.
  - rewrite Hpush. unfold Readable_push, modify_rs. run_m.
    destruct (ended (rs s2)); eexists; reflexivity.
Qed.

(** ** Preservation, compositionally *)

Lemma preserves_ret {A} (P : Stream -> Prop) (a : A) : preserves P (ret a).
Proof. intros s HP. exact HP. Qed.

Lemma preserves_throw {A} (P : Stream -> Prop) (e : JSError) :
  preserves P (@throw A e).
Proof. intros s HP. exact HP. Qed.

Lemma preserves_get (P : Stream -> Prop) : preserves P get.
Proof. intros s HP. exact HP. Qed.

Lemma preserves_modify (P : Stream -> Prop) (f : Stream -> Stream) :
  (forall s, P s -> P (f s)) -> preserves P (modify f).
Proof. intros Hf s HP. now apply Hf. Qed.

Lemma preserves_bind {A B} (P : Stream -> Prop) (m : M A) (k : A -> M B) :
  preserves P m -> (forall a, preserves P (k a)) -> preserves P (bind m k).
Proof.
  intros Hm Hk s HP. unfold bind. specialize (Hm s HP).
  destruct (m s) as [a s'|e s']; simpl in *; [now apply Hk|exact Hm].
Qed.

Lemma preserves_try_catch {A} (P : Stream -> Prop) (m : M A)
  (h : JSError -> M A) :
  preserves P m -> (forall e, preserves P (h e)) -> preserves P (try_catch m h).
Proof.
  intros Hm Hh s HP. unfold try_catch. specialize (Hm s HP).
  destruct (m s) as [a s'|e s']; simpl in *; [exact Hm|now apply Hh].
Qed.

Lemma preserves_lift {A} (P : Stream -> Prop) (r : JSError + A) :
  preserves P (lift r).
Proof. destruct r; intros s HP; exact HP. Qed.

(** The state an operation acts on is the one it was given: [bind get]
    may use what holds of it. *)
Lemma preserves_here {A} (P : Stream -> Prop) (k : Stream -> M A) :
  (forall s, P s -> P (outcome_state (k s s))) -> preserves P (bind get k).
Proof. intros Hk s HP. now apply Hk. Qed.

Create HintDb frame.

Ltac pres_step :=
  first
    [ solve [auto 1 with frame nocore]
    | apply preserves_ret
    | apply preserves_throw
    | apply preserves_get
    | apply preserves_lift
    | apply preserves_bind; [|intros ?]
    | apply preserves_try_catch; [|intros ?]
    | progress cbv beta iota
    | match goal with
      | |- preserves _ (match ?x with _ => _ end) => destruct x
      end ].

Ltac pres := repeat pres_step.

(** *** Operations that never write [kBody] *)

Abbreviation keeps_kBody m := (forall k, preserves (fun s => kBody s = k) m).

Ltac frame :=
  intros ?k; pres;
  try (apply preserves_modify; intros ?s ?Hs; simpl; exact Hs).

Lemma nextTick_kBody (t : Task) : keeps_kBody (nextTick t).
Proof. unfold nextTick. frame. Qed.

Lemma queueMicrotask_kBody (t : Task) : keeps_kBody (queueMicrotask t).
Proof. unfold queueMicrotask. frame. Qed.

Lemma modify_rs_kBody (f : ReadableState -> ReadableState) :
  keeps_kBody (modify_rs f).
Proof. unfold modify_rs. frame. Qed.

Lemma resolve_kBody (p : nat) (v : Value) : keeps_kBody (resolve p v).
Proof. unfold resolve. frame. Qed.

Lemma reject_kBody (p : nat) (e : JSError) : keeps_kBody (reject p e).
Proof. unfold reject. frame. Qed.

#[local] Hint Resolve nextTick_kBody queueMicrotask_kBody modify_rs_kBody
  resolve_kBody reject_kBody : frame.

Lemma Readable_push_kBody (v : val) : keeps_kBody (Readable_push v).
Proof. unfold Readable_push. frame. Qed.

Lemma Readable_destroy_kBody (err : option JSError) :
  keeps_kBody (Readable_destroy err).
Proof. unfold Readable_destroy. frame. Qed.

Lemma Readable_on_kBody (ev : Event) (fn : Handler) :
  keeps_kBody (Readable_on ev fn).
Proof. unfold Readable_on. frame. Qed.

Lemma Readable_resume_kBody : keeps_kBody Readable_resume.
Proof. unfold Readable_resume. frame. Qed.

Lemma read_request_kBody : keeps_kBody _read.
Proof. unfold _read. frame. Qed.

#[local] Hint Resolve Readable_push_kBody Readable_destroy_kBody
  Readable_on_kBody Readable_resume_kBody read_request_kBody : frame.

Lemma Readable_pipe_kBody : keeps_kBody Readable_pipe.
Proof. unfold Readable_pipe. frame. Qed.

Lemma Readable_read_kBody : keeps_kBody Readable_read.
Proof. unfold Readable_read. frame. Qed.

Lemma destroy_kBody (err : option JSError) : keeps_kBody (destroy err).
Proof. unfold destroy. frame. Qed.

Lemma run_listener_kBody (fn : Handler) (arg : option JSError) :
  keeps_kBody (run_listener fn arg).
Proof. unfold run_listener. frame. Qed.

#[local] Hint Resolve Readable_pipe_kBody Readable_read_kBody destroy_kBody
  run_listener_kBody : frame.

Lemma run_listeners_kBody (ev : Event) (arg : option JSError)
  (ls : list (Event * Handler)) :
  keeps_kBody (run_listeners ev arg ls).
Proof.
  induction ls as [|[ev' fn] ls IH]; intros k; simpl.
  - apply preserves_ret.
  - apply preserves_bind; [|intros _; apply IH].
    destruct (event_eqb ev' ev); [apply run_listener_kBody|apply preserves_ret].
Qed.

#[local] Hint Resolve run_listeners_kBody : frame.

Lemma emit_error_kBody (e : JSError) : keeps_kBody (emit_error e).
Proof. unfold emit_error. frame. Qed.

Lemma emit_end_kBody : keeps_kBody emit_end.
Proof. unfold emit_end. frame. Qed.

#[local] Hint Resolve emit_error_kBody emit_end_kBody : frame.

Lemma run_task_kBody (t : Task) : keeps_kBody (run_task t).
Proof. unfold run_task. frame. Qed.

#[local] Hint Resolve run_task_kBody : frame.

Lemma run_tick_kBody : keeps_kBody run_tick.
Proof. unfold run_tick. frame. Qed.

Lemma run_microtask_kBody : keeps_kBody run_microtask.
Proof. unfold run_microtask. frame. Qed.

Lemma natural_end_kBody : keeps_kBody natural_end.
Proof. unfold natural_end. frame. Qed.

#[local] Hint Resolve run_tick_kBody run_microtask_kBody natural_end_kBody
  : frame.

(** *** The lock object stays *)

Lemma frame_has_lock {A} (m : M A) (id : Mode * option nat) :
  keeps_kBody m -> preserves (has_lock id) m.
Proof.
  intros Hm s (l & Hk & Hid). exists l. split; [|exact Hid].
  exact (Hm (Obj l) s Hk).
Qed.

Ltac lock_step :=
  first
    [ solve [apply frame_has_lock; intros ?k; auto 1 with frame nocore]
    | pres_step
    | (apply preserves_modify; intros ?s _; eexists; split; reflexivity) ].

Ltac lock := repeat lock_step.

Lemma web_push_has_lock (c : option Controller.t) (v : val) :
  preserves (has_lock (kWebStreamType, None)) (web_push c v).
Proof. unfold web_push. lock. Qed.

Lemma accumulate_has_lock (a : AccMode) (b : AccBody) (p : nat) (v : val) :
  preserves (has_lock (AccMode_type a, Some p)) (accumulate a b p v).
Proof. unfold accumulate. lock. Qed.

Lemma acc_push_has_lock (a : AccMode) (b : AccBody) (p : nat) (v : val) :
  preserves (has_lock (AccMode_type a, Some p)) (acc_push a b p v).
Proof.
  unfold acc_push. pose proof (accumulate_has_lock a b p v). lock.
Qed.

Lemma lock_push_has_lock (id : Mode * option nat) (v : val) :
  preserves (has_lock id) (lock_push v).
Proof.
  intros s (l & Hk & Hid). unfold lock_push. run_m. rewrite Hk.
  destruct l as [used c|a used b p]; simpl in Hid; subst id.
  - apply web_push_has_lock. now exists (WebLock used c).
  - apply acc_push_has_lock. now exists (AccLock a used b p).
Qed.

Lemma push_has_lock (id : Mode * option nat) (v : val) :
  preserves (has_lock id) (push v).
Proof.
  intros s Hs. destruct Hs as (l & Hk & Hid) eqn:E.
  rewrite (push_lock v s _ Hk). apply lock_push_has_lock. now exists l.
Qed.

Lemma consume_has_lock (id : Mode * option nat) (this : This)
  (type : option Mode) :
  preserves (has_lock id) (consume this type).
Proof.
  intros s (l & Hk & Hid).
  rewrite (consume_when_locked this type s l Hk). simpl. now exists l.
Qed.

Lemma on_has_lock (id : Mode * option nat) (ev : Event) (fn : Handler) :
  preserves (has_lock id) (on ev fn).
Proof.
  intros s (l & Hk & Hid). unfold on. run_m. rewrite Hk. simpl.
  apply (frame_has_lock (Readable_on ev fn) id (Readable_on_kBody ev fn)).
  now exists l.
Qed.

Lemma read_has_lock (id : Mode * option nat) : preserves (has_lock id) read.
Proof.
  intros s (l & Hk & Hid). unfold read. run_m. rewrite Hk.
  apply (frame_has_lock Readable_read id Readable_read_kBody). now exists l.
Qed.

Lemma resume_has_lock (id : Mode * option nat) :
  preserves (has_lock id) resume.
Proof.
  intros s (l & Hk & Hid). unfold resume. run_m. rewrite Hk.
  apply (frame_has_lock Readable_resume id Readable_resume_kBody).
  now exists l.
Qed.

Lemma pipe_has_lock (id : Mode * option nat) : preserves (has_lock id) pipe.
Proof.
  intros s (l & Hk & Hid). unfold pipe. run_m. rewrite Hk.
  apply (frame_has_lock Readable_pipe id Readable_pipe_kBody). now exists l.
Qed.

Lemma consumer_read_has_lock (id : Mode * option nat) :
  preserves (has_lock id) consumer_read.
Proof.
  intros s (l & Hk & Hid). unfold consumer_read. run_m. rewrite Hk.
  destruct l as [used [c|]|a used b p]; simpl;
    try (eexists; split; [exact Hk|exact Hid]).
  eexists. split; [reflexivity|exact Hid].
Qed.

Lemma discard_preserves {A} (P : Stream -> Prop) (m : M A) :
  preserves P m -> preserves P (discard m).
Proof.
  intros Hm. unfold discard. apply preserves_bind; [exact Hm|].
  intros a. apply preserves_ret.
Qed.

Lemma step_has_lock (id : Mode * option nat) (op : Op) :
  preserves (has_lock id) (step op).
Proof.
  destruct op; simpl;
    try apply discard_preserves;
    first
      [ apply push_has_lock
      | apply consume_has_lock
      | apply on_has_lock
      | apply read_has_lock
      | apply resume_has_lock
      | apply pipe_has_lock
      | apply consumer_read_has_lock
      | solve [apply frame_has_lock; intros k; auto 1 with frame nocore]
      | idtac ].
  unfold cancel. apply frame_has_lock. intros k. apply destroy_kBody.
Qed.

Lemma run_has_lock (id : Mode * option nat) (ops : list Op) (s : Stream) :
  has_lock id s -> has_lock id (run ops s).
Proof.
  revert s. induction ops as [|op ops IH]; intros s Hs; simpl; [exact Hs|].
  apply IH. now apply step_has_lock.
Qed.

(** ** Draining the backlog *)

(** The lock's [push] leaves [state.buffer] alone. *)
Abbreviation keeps_buffer m :=
  (forall b, preserves (fun s => buffer (rs s) = b) m).

Create HintDb bufframe.

Ltac buf_step :=
  first
    [ solve [auto 1 with bufframe nocore]
    | pres_step
    | (apply preserves_modify; intros ?s ?Hs; simpl; exact Hs) ].

Ltac buf := intros ?b; repeat buf_step.

Lemma nextTick_buffer (t : Task) : keeps_buffer (nextTick t).
Proof. unfold nextTick. buf. Qed.

Lemma queueMicrotask_buffer (t : Task) : keeps_buffer (queueMicrotask t).
Proof. unfold queueMicrotask. buf. Qed.

Lemma resolve_buffer (p : nat) (v : Value) : keeps_buffer (resolve p v).
Proof. unfold resolve. buf. Qed.

#[local] Hint Resolve nextTick_buffer queueMicrotask_buffer resolve_buffer
  : bufframe.

Lemma Readable_destroy_buffer (err : option JSError) :
  keeps_buffer (Readable_destroy err).
Proof. unfold Readable_destroy, modify_rs. buf. Qed.

Lemma Readable_push_null_buffer : keeps_buffer (Readable_push None).
Proof. unfold Readable_push, modify_rs. buf. Qed.

#[local] Hint Resolve Readable_destroy_buffer Readable_push_null_buffer
  : bufframe.

Lemma destroy_buffer (err : option JSError) : keeps_buffer (destroy err).
Proof. unfold destroy. buf. Qed.

Lemma web_push_buffer (c : option Controller.t) (v : val) :
  keeps_buffer (web_push c v).
Proof. unfold web_push. buf. Qed.

Lemma accumulate_buffer (a : AccMode) (bd : AccBody) (p : nat) (v : val) :
  keeps_buffer (accumulate a bd p v).
Proof. unfold accumulate. buf. Qed.

#[local] Hint Resolve destroy_buffer web_push_buffer accumulate_buffer
  : bufframe.

Lemma acc_push_buffer (a : AccMode) (bd : AccBody) (p : nat) (v : val) :
  keeps_buffer (acc_push a bd p v).
Proof. unfold acc_push. buf. Qed.

#[local] Hint Resolve acc_push_buffer : bufframe.

Lemma lock_push_buffer (v : val) : keeps_buffer (lock_push v).
Proof. unfold lock_push. buf. Qed.

(** The loop of [start] hands the lock exactly the chunks that were
    buffered when it began, oldest first. *)
Lemma drain_is_deliver (id : Mode * option nat) (n : nat) (s : Stream) :
  has_lock id s ->
  List.length (buffer (rs s)) <= n ->
  drain n s = deliver (buffer (rs s)) s.
Proof.
  revert s. induction n as [|n IH]; intros s Hl Hn.
  - destruct (buffer (rs s)); [reflexivity|simpl in Hn; lia].
  - simpl. run_m. destruct (buffer (rs s)) as [|c rest] eqn:Hb; [reflexivity|].
    simpl. unfold modify_rs. run_m.
    set (s1 := with_rs (with_buffer rest (rs s)) s).
    assert (Hl1 : has_lock id s1).
    { destruct Hl as (l & Hk & Hid). now exists l. }
    pose proof (lock_push_has_lock id (Some c) s1 Hl1) as Hl2.
    pose proof (lock_push_buffer (Some c) rest s1 eq_refl) as Hb2.
    destruct (lock_push (Some c) s1) as [r s2|e s2]; [|reflexivity].
    simpl in Hl2, Hb2. rewrite <- Hb2. apply IH; [exact Hl2|].
    rewrite Hb2. simpl in Hn. lia.
Qed.

Lemma enqueue_all_nil (c : Controller.t) : enqueue_all c [] = c.
Proof.
  destruct c as [q cr st]. unfold enqueue_all. simpl. now rewrite app_nil_r.
Qed.

Lemma same_outside_lock_refl (s : Stream) : same_outside_lock s s.
Proof. unfold same_outside_lock. auto. Qed.

(** In pull-stream mode, on a live stream with an open controller, the
    chunks delivered are the chunks enqueued. *)
Lemma deliver_pull_stream (chunks : list chunk) (s : Stream) (u : bool)
  (c : Controller.t) :
  kBody s = Obj (WebLock u (Some c)) ->
  destroyed (rs s) = false ->
  Controller.canCloseOrEnqueue c = true ->
  exists s' u',
    deliver chunks s = Return tt s' /\
    kBody s' = Obj (WebLock u' (Some (enqueue_all c chunks))) /\
    same_outside_lock s s' /\
    buffer (rs s') = match chunks with [] => buffer (rs s) | _ => [] end.
Proof.
  revert s u c. induction chunks as [|x rest IH]; intros s u c Hk Hd Hc.
  - exists s, u. rewrite enqueue_all_nil.
    repeat split; auto.
  - simpl. unfold modify_rs, lock_push, web_push. run_m.
    rewrite Hk. simpl. rewrite Hd. unfold Controller.enqueue. rewrite Hc. run_m.
    set (c1 := {| Controller.queue := Controller.queue c ++ [Uint8Array x];
                  Controller.closeRequested := Controller.closeRequested c;
                  Controller.state := Controller.state c |}).
    set (s2 := with_kBody (Obj (WebLock true (Some c1))) _).
    destruct (IH s2 true c1) as (s' & u' & Hrun & Hk' & Hsame & Hbuf);
      [reflexivity|exact Hd|exact Hc|].
    exists s', u'. split; [exact Hrun|]. split; [|split].
    + rewrite Hk'. unfold enqueue_all, c1. simpl. now rewrite <- app_assoc.
    + destruct Hsame as (H1 & H2 & H3 & H4 & H5).
      unfold same_outside_lock. rewrite H1, H2, H3, H4, H5. auto.
    + rewrite Hbuf. now destruct rest.
Qed.

(** [start] on an installed lock is delivery of the backlog, then of the
    end sentinel if the stream has ended, then [_read]. *)
Lemma start_is_deliver (s : Stream) (l : Lock) :
  kBody s = Obj l ->
  listenerCount EvData s = 0 ->
  start s =
    (deliver (buffer (rs s)) ;;
     s' <- get ;;
     (if ended (rs s') then lock_push None ;; ret tt else ret tt) ;;
     _read) s.
Proof.
  intros Hk Hcount. unfold start. run_m. rewrite Hcount. simpl.
  rewrite (drain_is_deliver (lock_id l) _ s); [reflexivity| |apply Nat.le_refl].
  now exists l.
Qed.

(** [body] on a stream without a lock object installs the pull-stream
    lock and calls [start]. *)
Lemma body_installs (s : Stream) :
  bodyUsed s = false ->
  truthy (kBody s) = false ->
  body s = (start ;; ret RReadableStream) (pull_stream_installed s).
Proof.
  intros Hused Hk. unfold body, consume. run_m. rewrite Hused, Hk. simpl.
  unfold new_ReadableStream, source_start, on, Readable_on, modify_rs. run_m.
  rewrite Hk.
  destruct (kBody s) eqn:Hkb; [| |discriminate]; simpl; rewrite ?Hkb; simpl;
    unfold pull_stream_installed, with_kBody, with_rs, with_listeners; simpl;
    now rewrite <- app_assoc.
Qed.

(** Handing a chunk to the lock's [push] leaves [state.ended] alone. *)
Abbreviation keeps_ended m :=
  (forall e, preserves (fun s => ended (rs s) = e) m).

Create HintDb endframe.

Ltac end_step :=
  first
    [ solve [auto 1 with endframe nocore]
    | pres_step
    | (apply preserves_modify; intros ?s ?Hs; simpl; exact Hs) ].

Ltac ended_kept := intros ?e; repeat end_step.

Lemma nextTick_ended (t : Task) : keeps_ended (nextTick t).
Proof. unfold nextTick. ended_kept. Qed.

Lemma resolve_ended (p : nat) (v : Value) : keeps_ended (resolve p v).
Proof. unfold resolve. ended_kept. Qed.

#[local] Hint Resolve nextTick_ended resolve_ended : endframe.

Lemma Readable_destroy_ended (err : option JSError) :
  keeps_ended (Readable_destroy err).
Proof. unfold Readable_destroy, modify_rs. ended_kept. Qed.

#[local] Hint Resolve Readable_destroy_ended : endframe.

Lemma destroy_ended (err : option JSError) : keeps_ended (destroy err).
Proof. unfold destroy. ended_kept. Qed.

Lemma web_push_chunk_ended (c : option Controller.t) (x : chunk) :
  keeps_ended (web_push c (Some x)).
Proof. unfold web_push. ended_kept. Qed.

Lemma accumulate_chunk_ended (a : AccMode) (bd : AccBody) (p : nat)
  (x : chunk) :
  keeps_ended (accumulate a bd p (Some x)).
Proof. unfold accumulate. ended_kept. Qed.

#[local] Hint Resolve destroy_ended web_push_chunk_ended
  accumulate_chunk_ended : endframe.

Lemma acc_push_chunk_ended (a : AccMode) (bd : AccBody) (p : nat)
  (x : chunk) :
  keeps_ended (acc_push a bd p (Some x)).
Proof. unfold acc_push. ended_kept. Qed.

#[local] Hint Resolve acc_push_chunk_ended : endframe.

Lemma lock_push_chunk_ended (x : chunk) : keeps_ended (lock_push (Some x)).
Proof. unfold lock_push. ended_kept. Qed.

Lemma deliver_ended (chunks : list chunk) : keeps_ended (deliver chunks).
Proof.
  induction chunks as [|x rest IH]; intros e; simpl.
  - apply preserves_ret.
  - apply preserves_bind.
    + unfold modify_rs. apply preserves_modify. intros s Hs. exact Hs.
    + intros _. apply preserves_bind; [apply lock_push_chunk_ended|].
      intros _. apply IH.
Qed.

Lemma bind_assoc_at {A B C} (m : M A) (k : A -> M B) (k' : B -> M C)
  (s : Stream) :
  bind (bind m k) k' s = bind m (fun a => bind (k a) k') s.
Proof. unfold bind. now destruct (m s). Qed.

Lemma listenerCount_installed (s : Stream) :
  listenerCount EvData (pull_stream_installed s) = listenerCount EvData s.
Proof.
  unfold listenerCount, pull_stream_installed. simpl.
  rewrite filter_app, length_app. simpl. apply Nat.add_0_r.
Qed.

Lemma same_outside_lock_flags (s s' : Stream) :
  same_outside_lock s s' ->
  ended (rs s') = ended (rs s) /\ destroyed (rs s') = destroyed (rs s).
Proof.
  intros (_ & _ & _ & _ & Hrs). split.
  - exact (f_equal ended Hrs).
  - exact (f_equal destroyed Hrs).
Qed.

(** C7: [body] on a stream without a lock object installs the pull-stream
    lock and, before it returns, hands the lock's [push] every chunk of the
    base stream's backlog, oldest first, then the end sentinel if the
    stream had ended, and then calls [_read].  On a live stream the
    controller's queue is then the backlog, chunk for chunk and in order,
    close is requested exactly if the stream had ended, and the base
    stream's buffer is empty. *)
Theorem install_drains_backlog (s : Stream) :
  bodyUsed s = false ->
  truthy (kBody s) = false ->
  listenerCount EvData s = 0 ->
  body s =
    (deliver (buffer (rs s)) ;;
     (if ended (rs s) then lock_push None ;; ret tt else ret tt) ;;
     _read ;;
     ret RReadableStream) (pull_stream_installed s)
  /\ (destroyed (rs s) = false ->
      exists s' u' c',
        body s = Return RReadableStream s' /\
        kBody s' = Obj (WebLock u' (Some c')) /\
        Controller.queue c' = map Uint8Array (buffer (rs s)) /\
        Controller.closeRequested c' = ended (rs s) /\
        buffer (rs s') = [] /\
        microtasks s' =
          microtasks s ++ (if ended (rs s) then [TPushNull] else [])).
Proof.
  intros Hused Hk Hcount.
  assert (Heq : body s =
    (deliver (buffer (rs s)) ;;
     (if ended (rs s) then lock_push None ;; ret tt else ret tt) ;;
     _read ;;
     ret RReadableStream) (pull_stream_installed s)).
  { rewrite (body_installs s Hused Hk).
    set (s0 := pull_stream_installed s).
    unfold bind at 1.
    rewrite (start_is_deliver s0 (WebLock false (Some Controller.fresh)));
      [|reflexivity|unfold s0; now rewrite listenerCount_installed].
    change (buffer (rs s0)) with (buffer (rs s)).
    pose proof (deliver_ended (buffer (rs s)) (ended (rs s)) s0 eq_refl)
      as Hended.
    unfold bind, get.
    destruct (deliver (buffer (rs s)) s0) as [[] s1|e s1]; [|reflexivity].
    simpl in Hended. rewrite Hended.
    destruct (ended (rs s)); [|reflexivity].
    destruct (lock_push None s1); reflexivity. }
  split; [exact Heq|].
  intros Hd. rewrite Heq. clear Heq.
  set (s0 := pull_stream_installed s).
  destruct (deliver_pull_stream (buffer (rs s)) s0 false Controller.fresh)
    as (s1 & u1 & Hrun & Hk1 & Hsame & Hbuf); [reflexivity|exact Hd|reflexivity|].
  destruct (same_outside_lock_flags s0 s1 Hsame) as [Hended Hdestroyed].
  destruct Hsame as (_ & _ & _ & Hmicro & _).
  change (ended (rs s0)) with (ended (rs s)) in Hended.
  change (destroyed (rs s0)) with (destroyed (rs s)) in Hdestroyed.
  change (microtasks s0) with (microtasks s) in Hmicro.
  assert (Hbuf1 : buffer (rs s1) = []).
  { rewrite Hbuf. destruct (buffer (rs s)) eqn:Hb; [|reflexivity].
    unfold s0. simpl. exact Hb. }
  unfold bind at 1. rewrite Hrun.
  destruct (ended (rs s)) eqn:He.
  - unfold lock_push, web_push, _read, modify_rs, queueMicrotask. run_m.
    rewrite Hk1. simpl. rewrite Hdestroyed, Hd. run_m.
    do 3 eexists. split; [reflexivity|]. simpl.
    split; [reflexivity|]. rewrite Hbuf1, Hmicro. auto.
  - unfold _read, modify_rs. run_m.
    do 3 eexists. split; [reflexivity|]. simpl.
    split; [exact Hk1|]. rewrite Hbuf1, Hmicro, app_nil_r. auto.
Qed.

(** ** Destroying without an error *)

(** C5, as the code has it: [destroy()] with no error, on a stream not yet
    destroyed, hands the base teardown an [AbortError] exactly when a lock
    object is installed ([this[kBody]] is truthy, which the [null] of the
    legacy gate is not) and 'end' has not been emitted; the base stream
    then reports that error on a later tick.  Without a lock object, or
    after 'end', no error is handed on and none is reported. *)
Theorem destroy_without_error (s : Stream) :
  kDestroyed s = false ->
  destroyed (rs s) = false ->
  exists s',
    destroy None s = Return tt s' /\
    kDestroyed s' = true /\
    destroyed (rs s') = true /\
    errored (rs s') =
      (if truthy (kBody s) && negb (endEmitted (rs s))
       then Some AbortError else None) /\
    ticks s' =
      ticks s ++ (if truthy (kBody s) && negb (endEmitted (rs s))
                  then [TEmitError AbortError] else []).
Proof.
  intros Hkd Hd. unfold destroy, Readable_destroy, modify_rs, nextTick. run_m.
  rewrite Hkd, Hd. simpl.
  destruct (truthy (kBody s)), (endEmitted (rs s)); simpl;
    eexists; (split; [reflexivity|]); simpl; rewrite ?app_nil_r; auto.
Qed.

(** ** After the legacy gate *)

Lemma new_Promise_returns (f : nat -> M unit) (s : Stream) :
  exists p s', new_Promise f s = Return p s'.
Proof.
  unfold new_Promise, reject. run_m.
  match goal with |- context [f ?p ?s1] => destruct (f p s1) end;
    now do 2 eexists.
Qed.

Lemma deliver_pull_stream_returns (chunks : list chunk) (s : Stream)
  (u : bool) (c : Controller.t) :
  kBody s = Obj (WebLock u (Some c)) ->
  Controller.canCloseOrEnqueue c = true ->
  exists s' u' c',
    deliver chunks s = Return tt s' /\
    kBody s' = Obj (WebLock u' (Some c')) /\
    Controller.canCloseOrEnqueue c' = true.
Proof.
  revert s u c. induction chunks as [|x rest IH]; intros s u c Hk Hc.
  - now exists s, u, c.
  - simpl. unfold modify_rs, lock_push, web_push. run_m.
    rewrite Hk. simpl. destruct (destroyed (rs s)).
    + apply (IH _ u c); [exact Hk|exact Hc].
    + unfold Controller.enqueue. rewrite Hc. run_m.
      eapply IH; [reflexivity|exact Hc].
Qed.

Lemma start_pull_stream_throws (s : Stream) (u : bool) (c : Controller.t) :
  kBody s = Obj (WebLock u (Some c)) ->
  Controller.canCloseOrEnqueue c = true ->
  forall e s', start s = Throw e s' -> e = AssertionError.
Proof.
  intros Hk Hc e s' Hthrow. unfold start in Hthrow. revert Hthrow. run_m.
  destruct (Nat.eqb (listenerCount EvData s) 0); simpl;
    [|intros Ht; now injection Ht as <- _].
  rewrite (drain_is_deliver (kWebStreamType, None));
    [|eexists; split; [exact Hk|reflexivity]|apply Nat.le_refl].
  destruct (deliver_pull_stream_returns (buffer (rs s)) s u c Hk Hc)
    as (s1 & u1 & c1 & Hrun & Hk1 & Hc1).
  rewrite Hrun. destruct (ended (rs s1)); [|discriminate].
  unfold lock_push, web_push, _read, modify_rs, queueMicrotask. run_m.
  rewrite Hk1. simpl. destruct (destroyed (rs s1)); simpl; [discriminate|].
  unfold Controller.close. rewrite Hc1. simpl. discriminate.
Qed.

Lemma consume_after_gate_not_locked (this : This) (m : Mode) (s : Stream) :
  kBody s = Null ->
  forall s', consume this (Some m) s <> Throw (TypeError "locked") s'.
Proof.
  intros Hk s'. destruct (bodyUsed s) eqn:Hused.
  - rewrite (consume_when_used this (Some m) s Hused). discriminate.
  - destruct (acc_of_mode m) as [a|] eqn:Hm.
    + unfold consume. run_m. rewrite Hused, Hk, Hm. simpl.
      destruct (new_Promise_returns (executor this a) s) as (p & s1 & Hp).
      rewrite Hp. discriminate.
    + assert (m = kWebStreamType) as -> by (destruct m; now try discriminate).
      change (consume this (Some kWebStreamType) s) with (body s).
      rewrite (body_installs s Hused); [|now rewrite Hk].
      unfold bind.
      destruct (start (pull_stream_installed s)) as [[] s1|e s1] eqn:Hstart;
        [discriminate|].
      rewrite (start_pull_stream_throws (pull_stream_installed s) false
                 Controller.fresh eq_refl eq_refl e s1 Hstart).
      discriminate.
Qed.

(** C4, as the code has it: a lock object, once installed, is never
    replaced or cleared: after any sequence of calls and deferred work
    [kBody] still holds a lock object of the same mode, with the same
    promise.  The legacy gate leaves [null] in [kBody]; a consumption with
    a mode attempted after it never fails with 'locked', and fails with
    'disturbed' whenever [bodyUsed] is true. *)
Theorem lock_object_is_kept (s : Stream) :
  (forall l ops, kBody s = Obj l -> has_lock (lock_id l) (run ops s)) /\
  (kBody s = Null ->
   forall this m,
     (bodyUsed s = true ->
      consume this (Some m) s = Throw (TypeError "disturbed") s) /\
     (forall s', consume this (Some m) s <> Throw (TypeError "locked") s')).
Proof.
  split.
  - intros l ops Hk. apply run_has_lock. now exists l.
  - intros Hk this m. split.
    + apply consume_when_used.
    + now apply consume_after_gate_not_locked.
Qed.

(** * Further properties *)

(** ** What no operation undoes *)

Lemma follows_refl (s : Stream) : follows s s.
Proof. unfold follows. repeat split; auto. Qed.

Lemma follows_trans (s1 s2 s3 : Stream) :
  follows s1 s2 -> follows s2 s3 -> follows s1 s3.
Proof.
  intros (A1 & A2 & A3 & A4 & A5 & A6 & A7) (B1 & B2 & B3 & B4 & B5 & B6 & B7).
  unfold follows. repeat split; auto.
  - intros Hd. rewrite (B5 (A2 Hd)). auto.
  - intros Hk. destruct (B6 Hk) as [Hk2|Hd3]; [|now right].
    destruct (A6 Hk2) as [Hk1|Hd2]; [now left|right; auto].
Qed.

Lemma advances_ret {A} (a : A) : advances (ret a).
Proof. intros s. apply follows_refl. Qed.

Lemma advances_throw {A} (e : JSError) : advances (@throw A e).
Proof. intros s. apply follows_refl. Qed.

Lemma advances_get : advances get.
Proof. intros s. apply follows_refl. Qed.

Lemma advances_lift {A} (r : JSError + A) : advances (lift r).
Proof. destruct r; intros s; apply follows_refl. Qed.

Lemma advances_modify (f : Stream -> Stream) :
  (forall s, follows s (f s)) -> advances (modify f).
Proof. intros Hf s. apply Hf. Qed.

Lemma advances_bind {A B} (m : M A) (k : A -> M B) :
  advances m -> (forall a, advances (k a)) -> advances (bind m k).
Proof.
  intros Hm Hk s. unfold bind. specialize (Hm s).
  destruct (m s) as [a s'|e s']; simpl in *; [|exact Hm].
  exact (follows_trans _ _ _ Hm (Hk a s')).
Qed.

Lemma advances_try_catch {A} (m : M A) (h : JSError -> M A) :
  advances m -> (forall e, advances (h e)) -> advances (try_catch m h).
Proof.
  intros Hm Hh s. unfold try_catch. specialize (Hm s).
  destruct (m s) as [a s'|e s']; simpl in *; [exact Hm|].
  exact (follows_trans _ _ _ Hm (Hh e s')).
Qed.

Lemma settle_keeps (ps : list PromiseState) (q p : nat)
  (x st : PromiseState) :
  nth_error ps p = Some st -> st <> Pending ->
  nth_error (settle q x ps) p = Some st.
Proof.
  revert q p. induction ps as [|y ps IH]; intros q p Hp Hst;
    [now destruct q|].
  destruct q as [|q], p as [|p]; simpl in *.
  - injection Hp as ->. now destruct st.
  - now destruct y.
  - now destruct y.
  - destruct y; now apply IH.
Qed.

Lemma alloc_keeps (ps : list PromiseState) (p : nat) (x st : PromiseState) :
  nth_error ps p = Some st -> nth_error (ps ++ [x]) p = Some st.
Proof.
  intros Hp. rewrite nth_error_app1; [exact Hp|].
  apply nth_error_Some. now rewrite Hp.
Qed.

Create HintDb adv.

Ltac adv_leaf :=
  apply advances_modify; intros ?s; unfold follows, promise_state; simpl;
  repeat split; auto;
  try (intros ?p ?st ?Hp ?Hst;
       first [ now apply settle_keeps | now apply alloc_keeps ]).

Ltac adv_step :=
  first
    [ solve [auto 1 with adv nocore]
    | apply advances_ret
    | apply advances_throw
    | apply advances_get
    | apply advances_lift
    | apply advances_bind; [|intros ?]
    | apply advances_try_catch; [|intros ?]
    | progress cbv beta iota
    | match goal with
      | |- advances (match ?x with _ => _ end) => destruct x
      end
    | solve [adv_leaf] ].

Ltac adv := repeat adv_step.

Lemma nextTick_advances (t : Task) : advances (nextTick t).
Proof. unfold nextTick. adv. Qed.

Lemma queueMicrotask_advances (t : Task) : advances (queueMicrotask t).
Proof. unfold queueMicrotask. adv. Qed.

Lemma resolve_advances (p : nat) (v : Value) : advances (resolve p v).
Proof. unfold resolve. adv. Qed.

Lemma reject_advances (p : nat) (e : JSError) : advances (reject p e).
Proof. unfold reject. adv. Qed.

Lemma read_request_advances : advances _read.
Proof. unfold _read, modify_rs. adv. Qed.

#[local] Hint Resolve nextTick_advances queueMicrotask_advances
  resolve_advances reject_advances read_request_advances : adv.

Lemma Readable_push_advances (v : val) : advances (Readable_push v).
Proof. unfold Readable_push, modify_rs. adv. Qed.

Lemma Readable_destroy_advances (err : option JSError) :
  advances (Readable_destroy err).
Proof.
  intros s. unfold Readable_destroy, modify_rs, nextTick. run_m.
  destruct (destroyed (rs s)) eqn:Hd; [apply follows_refl|].
  destruct err; simpl; unfold follows; simpl; repeat split; auto;
    rewrite Hd; discriminate.
Qed.

Lemma Readable_on_advances (ev : Event) (fn : Handler) :
  advances (Readable_on ev fn).
Proof. unfold Readable_on, modify_rs. adv. Qed.

Lemma Readable_resume_advances : advances Readable_resume.
Proof. unfold Readable_resume, modify_rs. adv. Qed.

#[local] Hint Resolve Readable_push_advances Readable_destroy_advances
  Readable_on_advances Readable_resume_advances : adv.

Lemma Readable_pipe_advances : advances Readable_pipe.
Proof. unfold Readable_pipe. adv. Qed.

Lemma Readable_read_advances : advances Readable_read.
Proof. unfold Readable_read, modify_rs. adv. Qed.

Lemma destroy_advances (err : option JSError) : advances (destroy err).
Proof.
  intros s. unfold destroy. run_m.
  destruct (kDestroyed s) eqn:Hkd; [apply follows_refl|].
  match goal with |- context [Readable_destroy ?x _] => set (e := x) end.
  pose proof (Readable_destroy_advances e (with_kDestroyed true s))
    as (A1 & A2 & A3 & A4 & A5 & A6 & A7).
  assert (Hd : destroyed
                 (rs (outcome_state
                        (Readable_destroy e (with_kDestroyed true s)))) = true).
  { unfold Readable_destroy, modify_rs, nextTick. run_m.
    destruct (destroyed (rs s)) eqn:Hd; [exact Hd|]. now destruct e. }
  unfold follows. repeat split; auto.
Qed.

#[local] Hint Resolve Readable_pipe_advances Readable_read_advances
  destroy_advances : adv.

Lemma run_listener_advances (fn : Handler) (arg : option JSError) :
  advances (run_listener fn arg).
Proof. unfold run_listener. adv. Qed.

#[local] Hint Resolve run_listener_advances : adv.

Lemma run_listeners_advances (ev : Event) (arg : option JSError)
  (ls : list (Event * Handler)) :
  advances (run_listeners ev arg ls).
Proof.
  induction ls as [|[ev' fn] ls IH]; simpl; [apply advances_ret|].
  apply advances_bind; [|intros _; exact IH].
  destruct (event_eqb ev' ev); [apply run_listener_advances|apply advances_ret].
Qed.

#[local] Hint Resolve run_listeners_advances : adv.

Lemma emit_error_advances (e : JSError) : advances (emit_error e).
Proof. unfold emit_error. adv. Qed.

Lemma emit_end_advances : advances emit_end.
Proof. unfold emit_end, modify_rs. adv. Qed.

#[local] Hint Resolve emit_error_advances emit_end_advances : adv.

Lemma run_task_advances (t : Task) : advances (run_task t).
Proof. unfold run_task. adv. Qed.

#[local] Hint Resolve run_task_advances : adv.

Lemma run_tick_advances : advances run_tick.
Proof. unfold run_tick. adv. Qed.

Lemma run_microtask_advances : advances run_microtask.
Proof. unfold run_microtask. adv. Qed.

Lemma natural_end_advances : advances natural_end.
Proof. unfold natural_end. adv. Qed.

Lemma web_push_advances (c : option Controller.t) (v : val) :
  advances (web_push c v).
Proof. unfold web_push. adv. Qed.

Lemma accumulate_advances (a : AccMode) (b : AccBody) (p : nat) (v : val) :
  advances (accumulate a b p v).
Proof. unfold accumulate. adv. Qed.

#[local] Hint Resolve run_tick_advances run_microtask_advances
  natural_end_advances web_push_advances accumulate_advances : adv.

Lemma acc_push_advances (a : AccMode) (b : AccBody) (p : nat) (v : val) :
  advances (acc_push a b p v).
Proof. unfold acc_push. adv. Qed.

#[local] Hint Resolve acc_push_advances : adv.

Lemma lock_push_advances (v : val) : advances (lock_push v).
Proof. unfold lock_push. adv. Qed.

#[local] Hint Resolve lock_push_advances : adv.

Lemma push_advances (v : val) : advances (push v).
Proof. unfold push. adv. Qed.

Lemma drain_advances (n : nat) : advances (drain n).
Proof.
  induction n as [|n IH]; simpl; [apply advances_ret|].
  unfold modify_rs. adv.
Qed.

#[local] Hint Resolve push_advances drain_advances : adv.

Lemma start_advances : advances start.
Proof. unfold start. adv. Qed.

Lemma consume_gate_advances : advances consume_gate.
Proof. unfold consume_gate. adv. Qed.

#[local] Hint Resolve start_advances consume_gate_advances : adv.

Lemma on_advances (ev : Event) (fn : Handler) : advances (on ev fn).
Proof. unfold on. adv. Qed.

#[local] Hint Resolve on_advances : adv.

Lemma source_start_advances (c : Controller.t) : advances (source_start c).
Proof. unfold source_start. adv. Qed.

Lemma this_type_advances (this : This) : advances (this_type this).
Proof. unfold this_type. adv. Qed.

#[local] Hint Resolve source_start_advances this_type_advances : adv.

Lemma executor_advances (this : This) (a : AccMode) (p : nat) :
  advances (executor this a p).
Proof. unfold executor. adv. Qed.

Lemma new_Promise_advances (f : nat -> M unit) :
  (forall p, advances (f p)) -> advances (new_Promise f).
Proof.
  intros Hf s. unfold new_Promise.
  set (p := List.length (promises s)).
  set (s1 := with_promises (promises s ++ [Pending]) s).
  assert (H1 : follows s s1).
  { unfold follows, promise_state; simpl. repeat split; auto.
    intros q st Hq _. now apply alloc_keeps. }
  assert (H2 : advances (try_catch (f p) (fun e => reject p e) ;; ret p)).
  { adv. }
  exact (follows_trans _ _ _ H1 (H2 s1)).
Qed.

Lemma promise_of_executor_advances (this : This) (a : AccMode) :
  advances (new_Promise (executor this a)).
Proof. apply new_Promise_advances. intros p. apply executor_advances. Qed.

#[local] Hint Resolve promise_of_executor_advances : adv.

Lemma consume_advances (this : This) (type : option Mode) :
  advances (consume this type).
Proof. unfold consume, new_ReadableStream. adv. Qed.

#[local] Hint Resolve consume_advances : adv.

Lemma step_advances (op : Op) : advances (step op).
Proof.
  destruct op; simpl; unfold discard, read, resume, pipe, addListener,
    body, text, json, blob, arrayBuffer, pull, cancel, consumer_read; adv.
Qed.

Lemma run_follows (ops : list Op) (s : Stream) : follows s (run ops s).
Proof.
  revert s. induction ops as [|op ops IH]; intros s; simpl.
  - apply follows_refl.
  - exact (follows_trans _ _ _ (step_advances op s) (IH _)).
Qed.

(** X1: [destroy] acts once in the life of an object: after a first call,
    whatever was called in between, a further [destroy], with or without
    an error, returns at once and changes nothing. *)
Theorem destroy_acts_once (e1 e2 : option JSError) (ops : list Op)
  (s : Stream) :
  destroy e2 (run (ODestroy e1 :: ops) s) =
    Return tt (run (ODestroy e1 :: ops) s).
Proof.
  assert (Hk : kDestroyed (outcome_state (destroy e1 s)) = true).
  { unfold destroy. run_m. destruct (kDestroyed s) eqn:Hkd; [exact Hkd|].
    unfold Readable_destroy, modify_rs, nextTick. run_m.
    destruct (destroyed (rs s)); [reflexivity|].
    destruct (if truthy (kBody s) && is_none e1 && negb (endEmitted (rs s))
              then Some AbortError else e1); reflexivity. }
  simpl. destruct (run_follows ops (outcome_state (destroy e1 s))) as (A1 & _).
  unfold destroy at 1. unfold bind, get. now rewrite (A1 Hk).
Qed.

Lemma destroy_hands_error (e : JSError) (s : Stream) :
  kDestroyed s = false ->
  destroyed (rs s) = false ->
  destroy (Some e) s =
    Return tt
      (with_ticks (ticks s ++ [TEmitError e])
         (with_rs (with_destroyed true (Some e) (rs s))
            (with_kDestroyed true s))).
Proof.
  intros Hkd Hd. unfold destroy, Readable_destroy, modify_rs, nextTick. run_m.
  rewrite Hkd. simpl. rewrite andb_false_r. simpl. rewrite Hd. reflexivity.
Qed.

(** X2: [destroy(err)] with an error, on a stream not yet destroyed, hands
    that very error to the base stream, lock or no lock, ended or not: no
    [AbortError] takes its place.  The error is reported on a later tick,
    and it stays the stream's error whatever is called afterwards. *)
Theorem destroy_error_is_kept (e : JSError) (ops : list Op) (s : Stream) :
  kDestroyed s = false ->
  destroyed (rs s) = false ->
  ticks (outcome_state (destroy (Some e) s)) = ticks s ++ [TEmitError e] /\
  kBody (outcome_state (destroy (Some e) s)) = kBody s /\
  errored (rs (run (ODestroy (Some e) :: ops) s)) = Some e.
Proof.
  intros Hkd Hd. simpl. rewrite (destroy_hands_error e s Hkd Hd). simpl.
  repeat split.
  match goal with |- context [run ops ?s1] =>
    destruct (run_follows ops s1) as (_ & _ & _ & _ & A5 & _)
  end.
  now rewrite A5.
Qed.

(** X3: [cancel(reason)] destroys the stream with an error made of the
    reason: an error is kept, a string is wrapped in an [Error], anything
    else becomes an [AbortError]; on a destroyed stream it does nothing. *)
Theorem cancel_destroys (reason : Reason) (s : Stream) :
  (kDestroyed s = false -> destroyed (rs s) = false ->
   exists s',
     cancel reason s = Return tt s' /\
     kDestroyed s' = true /\
     destroyed (rs s') = true /\
     errored (rs s') = Some (cancel_error reason) /\
     ticks s' = ticks s ++ [TEmitError (cancel_error reason)]) /\
  (kDestroyed s = true -> cancel reason s = Return tt s).
Proof.
  split.
  - intros Hkd Hd. eexists. split.
    + unfold cancel. fold (cancel_error reason).
      apply (destroy_hands_error _ s Hkd Hd).
    + simpl. auto.
  - intros Hkd. unfold cancel, destroy. run_m. now rewrite Hkd.
Qed.

(** X4: on every stream made by the constructor and driven by any calls,
    [this[kDestroyed]] implies [this.destroyed]: the flag [destroy] tests
    and the flag the locks' [push] tests do not drift apart. *)
Theorem kDestroyed_implies_destroyed (didRead : option bool)
  (ops : list Op) :
  kDestroyed (run ops (new_BodyReadable didRead)) = true ->
  destroyed (rs (run ops (new_BodyReadable didRead))) = true.
Proof.
  intros Hk.
  destruct (run_follows ops (new_BodyReadable didRead))
    as (_ & _ & _ & _ & _ & A6 & _).
  destruct (A6 Hk) as [Habs|Hd]; [discriminate Habs|exact Hd].
Qed.

(** X5: destruction is final for the producer: once [destroy] was called
    on a stream holding a lock object, every later [push], whatever was
    called in between, returns [false] and changes nothing. *)
Theorem push_after_destroy_forever (err : option JSError) (ops : list Op)
  (v : val) (s : Stream) (l : Lock) :
  kBody s = Obj l ->
  kDestroyed s = false ->
  push v (run (ODestroy err :: ops) s) =
    Return false (run (ODestroy err :: ops) s).
Proof.
  intros Hk Hkd.
  assert (Hl : has_lock (lock_id l) (run (ODestroy err :: ops) s)).
  { apply run_has_lock. now exists l. }
  destruct Hl as (l' & Hk' & _).
  assert (Hd : destroyed (rs (run (ODestroy err :: ops) s)) = true).
  { simpl.
    match goal with |- context [run ops ?s1] =>
      destruct (run_follows ops s1) as (_ & A2 & _); apply A2
    end.
    unfold destroy, Readable_destroy, modify_rs, nextTick. run_m.
    rewrite Hkd. simpl. destruct (destroyed (rs s)) eqn:Hd0; [exact Hd0|].
    destruct (if truthy (kBody s) && is_none err && negb (endEmitted (rs s))
              then Some AbortError else err); reflexivity. }
  rewrite (push_lock v _ l' Hk').
  exact (lock_push_after_destroy v _ l' Hk' Hd).
Qed.

(** X6: the promise of [text], [json], [blob] and [arrayBuffer]: on any
    stream that is not used and holds no lock object, each of the four
    returns a new promise that is already rejected with the [TypeError] of
    [this.type], leaves [kBody] as it was, and that promise stays rejected
    whatever is called afterwards. *)
Theorem accumulator_promise_stays_rejected (a : AccMode) (ops : list Op)
  (s : Stream) :
  bodyUsed s = false ->
  truthy (kBody s) = false ->
  exists s',
    consume ThisUndefined (Some (AccMode_type a)) s =
      Return (RPromise (List.length (promises s))) s' /\
    kBody s' = kBody s /\
    bodyUsed s' = false /\
    promise_state (List.length (promises s)) (run ops s') =
      Some (Rejected no_type).
Proof.
  intros Hused Hk. exists (after_failed_executor s).
  split; [exact (accumulator_consume_rejects a s Hused Hk)|].
  split; [reflexivity|]. split; [exact Hused|].
  destruct (run_follows ops (after_failed_executor s))
    as (_ & _ & _ & _ & _ & _ & A7).
  apply A7; [|discriminate].
  unfold promise_state, after_failed_executor. simpl.
  rewrite nth_error_app2 by apply Nat.le_refl.
  now rewrite Nat.sub_diag.
Qed.

(** ** A delivery disturbs for good *)

Lemma frame_has_used_lock {A} (m : M A) (id : Mode * option nat) :
  keeps_kBody m -> preserves (has_used_lock id) m.
Proof.
  intros Hm s (l & Hk & Hid & Hu). exists l. split; [|now split].
  exact (Hm (Obj l) s Hk).
Qed.

Ltac used_step :=
  first
    [ solve [apply frame_has_used_lock; intros ?k; auto 1 with frame nocore]
    | pres_step
    | (apply preserves_modify; intros ?s _; eexists; repeat split) ].

Ltac used := repeat used_step.

Lemma web_push_has_used_lock (c : option Controller.t) (v : val) :
  preserves (has_used_lock (kWebStreamType, None)) (web_push c v).
Proof. unfold web_push. used. Qed.

Lemma accumulate_has_used_lock (a : AccMode) (b : AccBody) (p : nat)
  (v : val) :
  preserves (has_used_lock (AccMode_type a, Some p)) (accumulate a b p v).
Proof. unfold accumulate. used. Qed.

Lemma acc_push_has_used_lock (a : AccMode) (b : AccBody) (p : nat)
  (v : val) :
  preserves (has_used_lock (AccMode_type a, Some p)) (acc_push a b p v).
Proof.
  unfold acc_push. pose proof (accumulate_has_used_lock a b p v). used.
Qed.

Lemma lock_push_has_used_lock (id : Mode * option nat) (v : val) :
  preserves (has_used_lock id) (lock_push v).
Proof.
  intros s (l & Hk & Hid & Hu). unfold lock_push. run_m. rewrite Hk.
  destruct l as [u c|a u b p]; simpl in Hid, Hu; subst id u.
  - apply web_push_has_used_lock. now exists (WebLock true c).
  - apply acc_push_has_used_lock. now exists (AccLock a true b p).
Qed.

Lemma push_has_used_lock (id : Mode * option nat) (v : val) :
  preserves (has_used_lock id) (push v).
Proof.
  intros s Hs. pose proof Hs as (l & Hk & _).
  rewrite (push_lock v s l Hk). now apply lock_push_has_used_lock.
Qed.

Lemma consume_has_used_lock (id : Mode * option nat) (this : This)
  (type : option Mode) :
  preserves (has_used_lock id) (consume this type).
Proof.
  intros s Hs. pose proof Hs as (l & Hk & _).
  rewrite (consume_when_locked this type s l Hk). exact Hs.
Qed.

Lemma on_has_used_lock (id : Mode * option nat) (ev : Event) (fn : Handler) :
  preserves (has_used_lock id) (on ev fn).
Proof.
  intros s Hs. pose proof Hs as (l & Hk & _). unfold on. run_m. rewrite Hk.
  simpl.
  exact (frame_has_used_lock (Readable_on ev fn) id
           (Readable_on_kBody ev fn) s Hs).
Qed.

Lemma read_has_used_lock (id : Mode * option nat) :
  preserves (has_used_lock id) read.
Proof.
  intros s Hs. pose proof Hs as (l & Hk & _). unfold read. run_m. rewrite Hk.
  exact (frame_has_used_lock Readable_read id Readable_read_kBody s Hs).
Qed.

Lemma resume_has_used_lock (id : Mode * option nat) :
  preserves (has_used_lock id) resume.
Proof.
  intros s Hs. pose proof Hs as (l & Hk & _). unfold resume. run_m. rewrite Hk.
  exact (frame_has_used_lock Readable_resume id Readable_resume_kBody s Hs).
Qed.

Lemma pipe_has_used_lock (id : Mode * option nat) :
  preserves (has_used_lock id) pipe.
Proof.
  intros s Hs. pose proof Hs as (l & Hk & _). unfold pipe. run_m. rewrite Hk.
  exact (frame_has_used_lock Readable_pipe id Readable_pipe_kBody s Hs).
Qed.

Lemma consumer_read_has_used_lock (id : Mode * option nat) :
  preserves (has_used_lock id) consumer_read.
Proof.
  intros s Hs. pose proof Hs as (l & Hk & Hid & Hu).
  unfold consumer_read. run_m. rewrite Hk.
  destruct l as [u [c|]|a u b p]; simpl; try exact Hs.
  eexists. split; [reflexivity|]. split; [exact Hid|exact Hu].
Qed.

Lemma step_has_used_lock (id : Mode * option nat) (op : Op) :
  preserves (has_used_lock id) (step op).
Proof.
  destruct op; simpl;
    try apply discard_preserves;
    first
      [ apply push_has_used_lock
      | apply consume_has_used_lock
      | apply on_has_used_lock
      | apply read_has_used_lock
      | apply resume_has_used_lock
      | apply pipe_has_used_lock
      | apply consumer_read_has_used_lock
      | solve [apply frame_has_used_lock; intros k;
               auto 1 with frame nocore]
      | idtac ].
  unfold cancel. apply frame_has_used_lock. intros k. apply destroy_kBody.
Qed.

Lemma run_has_used_lock (id : Mode * option nat) (ops : list Op)
  (s : Stream) :
  has_used_lock id s -> has_used_lock id (run ops s).
Proof.
  revert s. induction ops as [|op ops IH]; intros s Hs; simpl; [exact Hs|].
  apply IH. now apply step_has_used_lock.
Qed.

(** The first thing a lock's [push] does on a live stream is to set
    [used], and no later step clears it, not even a throw. *)
Lemma push_marks_used (v : val) (s : Stream) (l : Lock) :
  kBody s = Obj l ->
  destroyed (rs s) = false ->
  has_used_lock (lock_id l) (outcome_state (push v s)).
Proof.
  intros Hk Hd. rewrite (push_lock v s l Hk).
  unfold lock_push. run_m. rewrite Hk.
  destruct l as [u c|a u b p].
  - assert (Heq : web_push c v s =
                  web_push c v (with_kBody (Obj (WebLock true c)) s)).
    { unfold web_push. run_m. now rewrite Hd. }
    rewrite Heq. apply web_push_has_used_lock.
    now exists (WebLock true c).
  - assert (Heq : acc_push a b p v s =
                  acc_push a b p v (with_kBody (Obj (AccLock a true b p)) s)).
    { unfold acc_push. run_m. now rewrite Hd. }
    rewrite Heq. apply acc_push_has_used_lock.
    now exists (AccLock a true b p).
Qed.

(** X7: one delivery disturbs for good.  After a chunk or the end sentinel
    was pushed on a live stream that holds a lock object, whether that
    push returned or threw, [bodyUsed] is true and stays true, and every
    later call of [consume], whatever was called in between, throws
    'disturbed'. *)
Theorem delivery_disturbs_for_good (v : val) (ops : list Op) (this : This)
  (type : option Mode) (s : Stream) (l : Lock) :
  kBody s = Obj l ->
  destroyed (rs s) = false ->
  bodyUsed (run (OPush v :: ops) s) = true /\
  consume this type (run (OPush v :: ops) s) =
    Throw (TypeError "disturbed") (run (OPush v :: ops) s).
Proof.
  intros Hk Hd.
  assert (Hu : has_used_lock (lock_id l) (run (OPush v :: ops) s)).
  { simpl. apply run_has_used_lock. unfold discard, bind, ret.
    pose proof (push_marks_used v s l Hk Hd) as Hp.
    destruct (push v s); exact Hp. }
  destruct Hu as (l' & Hk' & _ & Hu).
  assert (Hused : bodyUsed (run (OPush v :: ops) s) = true).
  { rewrite (bodyUsed_lock _ l' Hk'). exact Hu. }
  split; [exact Hused|]. now apply consume_when_used.
Qed.

(** ** The legacy calls *)

(** X8: on a stream never consumed ([kBody] is [undefined]), [read],
    [resume], [pipe] and [on] for 'data' or 'readable' first put [null]
    in [kBody] and then do what the base class does, on a stream whose
    backlog they have not touched; if the body is already used they throw
    'disturbed' instead and the base class is not called: no listener is
    registered.  [on] for any other event leaves [kBody] alone. *)
Theorem legacy_call_gates (s : Stream) :
  kBody s = Undefined ->
  (bodyUsed s = false ->
   read s = Readable_read (with_kBody Null s) /\
   resume s = Readable_resume (with_kBody Null s) /\
   pipe s = Readable_pipe (with_kBody Null s) /\
   (forall ev fn, is_data_or_readable ev = true ->
                  on ev fn s = Readable_on ev fn (with_kBody Null s))) /\
  (bodyUsed s = true ->
   read s = Throw (TypeError "disturbed") s /\
   resume s = Throw (TypeError "disturbed") s /\
   pipe s = Throw (TypeError "disturbed") s /\
   (forall ev fn, is_data_or_readable ev = true ->
                  on ev fn s = Throw (TypeError "disturbed") s)) /\
  (forall ev fn, is_data_or_readable ev = false ->
                 on ev fn s = Readable_on ev fn s).
Proof.
  intros Hk. split; [|split].
  - intros Hused. repeat split;
      try (intros ev fn Hev);
      unfold read, resume, pipe, on, consume, consume_gate; run_m;
      rewrite ?Hk, ?Hev; simpl; rewrite ?Hused; simpl;
      rewrite ?Hk; reflexivity.
  - intros Hused. repeat split;
      try (intros ev fn Hev);
      unfold read, resume, pipe, on, consume, consume_gate; run_m;
      rewrite ?Hk, ?Hev; simpl; rewrite ?Hused; reflexivity.
  - intros ev fn Hev. unfold on. run_m. rewrite Hk, Hev. reflexivity.
Qed.

(** [kBody] never goes back to [undefined]. *)
Lemma frame_consumed {A} (m : M A) : keeps_kBody m -> preserves consumed m.
Proof.
  intros Hm s Hs. unfold consumed. now rewrite (Hm (kBody s) s eq_refl).
Qed.

Create HintDb gate.

Ltac gate_step :=
  first
    [ solve [auto 1 with gate nocore]
    | solve [apply frame_consumed; intros ?k; auto 1 with frame nocore]
    | pres_step
    | (apply preserves_modify; intros ?s ?Hs; unfold consumed; simpl;
       first [exact Hs | discriminate]) ].

Ltac gate := repeat gate_step.

Lemma web_push_consumed (c : option Controller.t) (v : val) :
  preserves consumed (web_push c v).
Proof. unfold web_push. gate. Qed.

Lemma accumulate_consumed (a : AccMode) (b : AccBody) (p : nat) (v : val) :
  preserves consumed (accumulate a b p v).
Proof. unfold accumulate. gate. Qed.

#[local] Hint Resolve web_push_consumed accumulate_consumed : gate.

Lemma acc_push_consumed (a : AccMode) (b : AccBody) (p : nat) (v : val) :
  preserves consumed (acc_push a b p v).
Proof. unfold acc_push. gate. Qed.

#[local] Hint Resolve acc_push_consumed : gate.

Lemma lock_push_consumed (v : val) : preserves consumed (lock_push v).
Proof. unfold lock_push. gate. Qed.

#[local] Hint Resolve lock_push_consumed : gate.

Lemma push_consumed (v : val) : preserves consumed (push v).
Proof. unfold push. gate. Qed.

Lemma drain_consumed (n : nat) : preserves consumed (drain n).
Proof.
  induction n as [|n IH]; simpl; [apply preserves_ret|].
  apply preserves_here. intros s Hs.
  destruct (buffer (rs s)); [exact Hs|].
  revert s Hs. gate.
Qed.

#[local] Hint Resolve push_consumed drain_consumed : gate.

Lemma start_consumed : preserves consumed start.
Proof. unfold start. gate. Qed.

Lemma consume_gate_consumed : preserves consumed consume_gate.
Proof. unfold consume_gate. gate. Qed.

#[local] Hint Resolve start_consumed consume_gate_consumed : gate.

Lemma on_consumed (ev : Event) (fn : Handler) : preserves consumed (on ev fn).
Proof. unfold on. gate. Qed.

#[local] Hint Resolve on_consumed : gate.

Lemma source_start_consumed (c : Controller.t) :
  preserves consumed (source_start c).
Proof. unfold source_start. gate. Qed.

Lemma executor_consumed (this : This) (a : AccMode) (p : nat) :
  preserves consumed (executor this a p).
Proof. unfold executor, this_type. gate. Qed.

#[local] Hint Resolve source_start_consumed executor_consumed : gate.

Lemma consume_consumed (this : This) (type : option Mode) :
  preserves consumed (consume this type).
Proof.
  unfold consume, new_ReadableStream, new_Promise. gate.
Qed.

#[local] Hint Resolve consume_consumed : gate.

Lemma step_consumed (op : Op) : preserves consumed (step op).
Proof.
  destruct op; simpl;
    unfold discard, addListener, body, text, json, blob, arrayBuffer,
      read, resume, pipe, pull, cancel, consumer_read;
    gate.
Qed.

Lemma run_consumed (ops : list Op) (s : Stream) :
  consumed s -> consumed (run ops s).
Proof.
  revert s. induction ops as [|op ops IH]; intros s Hs; simpl; [exact Hs|].
  apply IH. now apply step_consumed.
Qed.

(** X9: the gate is passed once.  On a stream already consumed, through
    the gate or by a mode, and after any calls whatever, [read], [resume],
    [pipe] and [on] are the base class's: they are never refused again,
    not even while a lock object is installed or after its body was
    used. *)
Theorem legacy_call_after_consumption (ops : list Op) (s : Stream) :
  kBody s <> Undefined ->
  read (run ops s) = Readable_read (run ops s) /\
  resume (run ops s) = Readable_resume (run ops s) /\
  pipe (run ops s) = Readable_pipe (run ops s) /\
  (forall ev fn, on ev fn (run ops s) = Readable_on ev fn (run ops s)).
Proof.
  intros Hk. pose proof (run_consumed ops s Hk) as Hc.
  unfold consumed in Hc. unfold read, resume, pipe, on. run_m.
  destruct (kBody (run ops s)); [contradiction| |]; repeat split.
Qed.

(** ** Edges of the pull-stream installation *)

(** X10: [body] on a stream that has a 'data' listener (one gated by
    [on('data')] or [pipe], say) throws the [AssertionError] of [start],
    and it throws after the lock was assigned, with the backlog left
    where it was.  The lock stays for good: [consume] right after throws
    'locked', and after any later calls it still throws and installs
    nothing, 'locked' as long as nothing went through the lock,
    'disturbed' once something did. *)
Theorem body_with_data_listener (ops : list Op) (s : Stream) :
  bodyUsed s = false ->
  truthy (kBody s) = false ->
  listenerCount EvData s <> 0 ->
  (exists e,
     body s = Throw e (pull_stream_installed s) /\
     err_name e = "AssertionError" /\
     err_code e = Some "ERR_ASSERTION") /\
  buffer (rs (pull_stream_installed s)) = buffer (rs s) /\
  (forall this type,
     consume this type (pull_stream_installed s) =
       Throw (TypeError "locked") (pull_stream_installed s)) /\
  has_lock (kWebStreamType, None) (run ops (pull_stream_installed s)) /\
  (forall this type,
     consume this type (run ops (pull_stream_installed s)) =
       Throw (TypeError
                (if bodyUsed (run ops (pull_stream_installed s))
                 then "disturbed" else "locked"))
             (run ops (pull_stream_installed s))).
Proof.
  intros Hused Hk Hcount.
  assert (Hl : has_lock (kWebStreamType, None)
                 (run ops (pull_stream_installed s))).
  { apply run_has_lock.
    now exists (WebLock false (Some Controller.fresh)). }
  split; [|split; [reflexivity|split; [|split; [exact Hl|]]]].
  - exists AssertionError. split; [|split; reflexivity].
    rewrite (body_installs s Hused Hk). unfold bind, start. run_m.
    rewrite listenerCount_installed.
    destruct (Nat.eqb (listenerCount EvData s) 0) eqn:He; [|reflexivity].
    apply Nat.eqb_eq in He. contradiction.
  - intros this type.
    exact (consume_when_locked this type (pull_stream_installed s)
             (WebLock false (Some Controller.fresh)) eq_refl).
  - intros this type. destruct Hl as (l & Hkl & _).
    rewrite (bodyUsed_lock _ l Hkl).
    exact (consume_when_locked this type _ l Hkl).
Qed.

Lemma deliver_destroyed (chunks : list chunk) (s : Stream) (l : Lock) :
  kBody s = Obj l ->
  destroyed (rs s) = true ->
  deliver chunks s =
    Return tt
      match chunks with
      | [] => s
      | _ => with_rs (with_buffer [] (rs s)) s
      end.
Proof.
  revert s. induction chunks as [|x rest IH]; intros s Hk Hd; [reflexivity|].
  simpl. unfold modify_rs. run_m.
  set (s1 := with_rs (with_buffer rest (rs s)) s).
  rewrite (lock_push_after_destroy (Some x) s1 l Hk Hd).
  rewrite (IH s1 Hk Hd). now destruct rest.
Qed.

(** X11: [body] on a destroyed stream installs the lock and empties the
    backlog without delivering it: every buffered chunk is shifted off the
    base stream and handed to a [push] that ignores it, so the
    controller's queue stays empty and the lock stays unused. *)
Theorem body_on_destroyed_drops_backlog (s : Stream) :
  bodyUsed s = false ->
  truthy (kBody s) = false ->
  listenerCount EvData s = 0 ->
  destroyed (rs s) = true ->
  exists s',
    body s = Return RReadableStream s' /\
    kBody s' = Obj (WebLock false (Some Controller.fresh)) /\
    buffer (rs s') = [] /\
    microtasks s' = microtasks s.
Proof.
  intros Hused Hk Hcount Hd.
  rewrite (body_installs s Hused Hk).
  set (s0 := pull_stream_installed s).
  unfold bind at 1.
  rewrite (start_is_deliver s0 (WebLock false (Some Controller.fresh)));
    [|reflexivity|unfold s0; now rewrite listenerCount_installed].
  unfold bind at 1.
  rewrite (deliver_destroyed (buffer (rs s0)) s0
             (WebLock false (Some Controller.fresh)) eq_refl Hd).
  set (s1 := match buffer (rs s0) with [] => s0 | _ => _ end).
  assert (Hk1 : kBody s1 = Obj (WebLock false (Some Controller.fresh)))
    by (unfold s1; now destruct (buffer (rs s0))).
  assert (Hd1 : destroyed (rs s1) = true)
    by (unfold s1; now destruct (buffer (rs s0))).
  assert (Hb1 : buffer (rs s1) = [])
    by (unfold s1; now destruct (buffer (rs s0)) eqn:Hb).
  assert (Hm1 : microtasks s1 = microtasks s)
    by (unfold s1; now destruct (buffer (rs s0))).
  unfold bind, get.
  destruct (ended (rs s1)).
  - rewrite (lock_push_after_destroy None s1 _ Hk1 Hd1).
    unfold _read, modify_rs, modify, ret. simpl.
    eexists. split; [reflexivity|]. simpl. auto.
  - unfold _read, modify_rs, modify, ret. simpl.
    eexists. split; [reflexivity|]. simpl. auto.
Qed.

(** ** The pull-stream lock at work *)

Lemma desired_after_enqueue (u8 : list byte) (c c' : Controller.t) :
  Controller.enqueue u8 c = inr c' ->
  Controller.desiredSize_gt0 c' =
    (Z.of_nat (List.length (Controller.queue c)) + 1 <? 16 * 1024)%Z.
Proof.
  unfold Controller.enqueue, Controller.canCloseOrEnqueue.
  destruct c as [q cr st].
  cbn [Controller.state Controller.queue Controller.closeRequested].
  destruct st; try discriminate. destruct cr; try discriminate.
  cbn [negb]. intros Heq. injection Heq as <-.
  unfold Controller.desiredSize_gt0, Controller.desiredSize.
  cbn [Controller.state Controller.queue]. unfold Controller.highWaterMark.
  rewrite length_app. cbn [List.length]. rewrite Nat2Z.inj_add.
  change (Z.of_nat 1) with 1%Z.
  destruct (Z.ltb_spec 0 (16 * 1024 - (Z.of_nat (List.length q) + 1)));
    destruct (Z.ltb_spec (Z.of_nat (List.length q) + 1) (16 * 1024));
    try reflexivity; lia.
Qed.

(** X12: the capacity [push] reports in pull-stream mode counts chunks,
    not bytes: with an open controller on a live stream, pushing a chunk
    of any length returns [true] exactly while fewer than 16 * 1024 chunks
    are queued once it is added. *)
Theorem pull_stream_capacity (b : chunk) (s : Stream) (used : bool)
  (c : Controller.t) :
  kBody s = Obj (WebLock used (Some c)) ->
  destroyed (rs s) = false ->
  Controller.canCloseOrEnqueue c = true ->
  exists s',
    push (Some b) s =
      Return (Z.of_nat (List.length (Controller.queue c)) + 1 <? 16 * 1024)%Z
             s'.
Proof.
  intros Hk Hd Hc.
  rewrite (push_lock (Some b) s _ Hk). unfold lock_push. run_m. rewrite Hk.
  unfold web_push. run_m. rewrite Hd.
  destruct (Controller.enqueue (Uint8Array b) c) as [e|c'] eqn:Henq.
  - unfold Controller.enqueue in Henq. rewrite Hc in Henq. discriminate.
  - unfold ret. rewrite (desired_after_enqueue _ _ _ Henq). now eexists.
Qed.

(** X13: the end sentinel in pull-stream mode closes the controller at
    once but ends the base stream only later: [push(null)] leaves
    [state.ended] as it was and queues a microtask, and it is that
    microtask that marks the base stream ended. *)
Theorem pull_stream_end_is_deferred (s : Stream) (used : bool)
  (c : Controller.t) :
  kBody s = Obj (WebLock used (Some c)) ->
  destroyed (rs s) = false ->
  Controller.canCloseOrEnqueue c = true ->
  microtasks s = [] ->
  exists r s' c',
    push None s = Return r s' /\
    kBody s' = Obj (WebLock true (Some c')) /\
    Controller.closeRequested c' = true /\
    Controller.queue c' = Controller.queue c /\
    ended (rs s') = ended (rs s) /\
    microtasks s' = [TPushNull] /\
    ended (rs (outcome_state (run_microtask s'))) = true.
Proof.
  intros Hk Hd Hc Hm.
  rewrite (push_lock None s _ Hk). unfold lock_push. run_m. rewrite Hk.
  unfold web_push, queueMicrotask. run_m. rewrite Hd.
  unfold Controller.close. rewrite Hc. run_m.
  do 3 eexists. split; [reflexivity|]. simpl. rewrite Hm.
  repeat split.
  unfold run_microtask, run_task, Readable_push, modify_rs. run_m.
  destruct (ended (rs s)) eqn:He; simpl; [exact He|reflexivity].
Qed.

(** ** No accumulator lock is ever installed *)

Lemma frame_no_accumulator_lock {A} (m : M A) :
  keeps_kBody m -> preserves no_accumulator_lock m.
Proof.
  intros Hm s Hs. unfold no_accumulator_lock.
  now rewrite (Hm (kBody s) s eq_refl).
Qed.

Create HintDb nolock.

Ltac nolock_step :=
  first
    [ solve [auto 1 with nolock nocore]
    | solve [apply frame_no_accumulator_lock; intros ?k;
             auto 1 with frame nocore]
    | pres_step
    | (apply preserves_modify; intros ?s ?Hs; unfold no_accumulator_lock;
       simpl; first [exact Hs | exact I]) ].

Ltac nolock := repeat nolock_step.

Lemma web_push_no_accumulator_lock (c : option Controller.t) (v : val) :
  preserves no_accumulator_lock (web_push c v).
Proof. unfold web_push. nolock. Qed.

(** The one place that would call the accumulator's [push] needs its lock
    in [kBody]. *)
Lemma lock_push_no_accumulator_lock (v : val) :
  preserves no_accumulator_lock (lock_push v).
Proof.
  unfold lock_push. apply preserves_here. intros s Hs.
  pose proof Hs as Hs'. unfold no_accumulator_lock in Hs'.
  destruct (kBody s) as [| |[u c|a u b p]]; try exact Hs.
  - exact (web_push_no_accumulator_lock c v s Hs).
  - contradiction.
Qed.

#[local] Hint Resolve web_push_no_accumulator_lock
  lock_push_no_accumulator_lock : nolock.

Lemma push_no_accumulator_lock (v : val) :
  preserves no_accumulator_lock (push v).
Proof. unfold push. nolock. Qed.

Lemma drain_no_accumulator_lock (n : nat) :
  preserves no_accumulator_lock (drain n).
Proof.
  induction n as [|n IH]; simpl; [apply preserves_ret|].
  apply preserves_here. intros s Hs.
  destruct (buffer (rs s)); [exact Hs|].
  revert s Hs. nolock.
Qed.

#[local] Hint Resolve push_no_accumulator_lock drain_no_accumulator_lock
  : nolock.

Lemma start_no_accumulator_lock : preserves no_accumulator_lock start.
Proof. unfold start. nolock. Qed.

Lemma consume_gate_no_accumulator_lock :
  preserves no_accumulator_lock consume_gate.
Proof. unfold consume_gate. nolock. Qed.

#[local] Hint Resolve start_no_accumulator_lock
  consume_gate_no_accumulator_lock : nolock.

Lemma on_no_accumulator_lock (ev : Event) (fn : Handler) :
  preserves no_accumulator_lock (on ev fn).
Proof. unfold on. nolock. Qed.

#[local] Hint Resolve on_no_accumulator_lock : nolock.

Lemma source_start_no_accumulator_lock (c : Controller.t) :
  preserves no_accumulator_lock (source_start c).
Proof. unfold source_start. nolock. Qed.

(** Without a receiver the executor throws at [this.type], before the
    assignment of the lock (line 237 inside lines 234-278). *)
Lemma executor_no_accumulator_lock (a : AccMode) (p : nat) :
  preserves no_accumulator_lock (executor ThisUndefined a p).
Proof.
  unfold executor.
  apply preserves_bind; [apply on_no_accumulator_lock|intros _].
  apply preserves_bind; [apply on_no_accumulator_lock|intros _].
  intros s Hs. exact Hs.
Qed.

#[local] Hint Resolve source_start_no_accumulator_lock
  executor_no_accumulator_lock : nolock.

Lemma consume_no_accumulator_lock (type : option Mode) :
  preserves no_accumulator_lock (consume ThisUndefined type).
Proof. unfold consume, new_ReadableStream, new_Promise. nolock. Qed.

#[local] Hint Resolve consume_no_accumulator_lock : nolock.

Lemma step_no_accumulator_lock (op : Op) :
  preserves no_accumulator_lock (step op).
Proof.
  destruct op; simpl;
    unfold discard, addListener, body, text, json, blob, arrayBuffer,
      read, resume, pipe, pull, cancel, consumer_read;
    nolock.
Qed.

Lemma run_no_accumulator_lock (ops : list Op) (s : Stream) :
  no_accumulator_lock s -> no_accumulator_lock (run ops s).
Proof.
  revert s. induction ops as [|op ops IH]; intros s Hs; simpl; [exact Hs|].
  apply IH. now apply step_no_accumulator_lock.
Qed.

(** X14: no call installs an accumulator lock.  On every stream made by
    the constructor, after any calls whatever, [kBody] is [undefined],
    [null] or the pull-stream lock, never the lock of [text], [json],
    [blob] or [arrayBuffer]; a [push] of the producer is the base class's
    or the pull stream's, never the accumulator's. *)
Theorem accumulator_lock_never_installed (didRead : option bool)
  (ops : list Op) :
  let s := run ops (new_BodyReadable didRead) in
  (forall a u b p, kBody s <> Obj (AccLock a u b p)) /\
  (forall v,
     push v s = Readable_push v s \/
     exists u c, kBody s = Obj (WebLock u c) /\ push v s = web_push c v s).
Proof.
  intros s.
  assert (Hs : no_accumulator_lock s).
  { apply run_no_accumulator_lock. exact I. }
  clearbody s. unfold no_accumulator_lock in Hs. split.
  - intros a u b p Hk. now rewrite Hk in Hs.
  - intros v.
    destruct (kBody s) as [| |[u c|a u b p]] eqn:Hk; [| | |contradiction].
    + left. unfold push. run_m. now rewrite Hk.
    + left. unfold push. run_m. now rewrite Hk.
    + right. exists u, c. split; [reflexivity|].
      rewrite (push_lock v s _ Hk). unfold lock_push. run_m.
      now rewrite Hk.
Qed.

(** ** The listeners of the module *)

Lemma event_eqb_refl (ev : Event) : event_eqb ev ev = true.
Proof. destruct ev; simpl; try reflexivity. apply String.eqb_refl. Qed.

Lemma event_eqb_eq (a b : Event) : event_eqb a b = true -> a = b.
Proof.
  destruct a, b; simpl; try discriminate; try reflexivity.
  intros Heq. apply String.eqb_eq in Heq. now subst.
Qed.

Lemma listenerCount_In (ev : Event) (fn : Handler) (s : Stream) :
  In (ev, fn) (listeners (rs s)) -> listenerCount ev s <> 0.
Proof.
  unfold listenerCount. intros Hin Hlen.
  apply length_zero_iff_nil in Hlen.
  assert (Hf : In (ev, fn)
                 (filter (fun l => event_eqb (fst l) ev) (listeners (rs s)))).
  { apply filter_In. split; [exact Hin|apply event_eqb_refl]. }
  rewrite Hlen in Hf. contradiction.
Qed.

Lemma run_listener_returns (fn : Handler) (arg : option JSError)
  (s : Stream) :
  fn <> HControllerError ->
  exists s', run_listener fn arg s = Return tt s' /\ kBody s' = kBody s.
Proof.
  intros Hfn. destruct fn; simpl; try (now exists s).
  - destruct arg; [|now exists s]. unfold reject. run_m. now eexists.
  - unfold Readable_destroy, modify_rs, nextTick. run_m.
    destruct (destroyed (rs s)); now eexists.
Qed.

Lemma run_listeners_throws (e : JSError) (ls : list (Event * Handler))
  (s : Stream) :
  In (EvError, HControllerError) ls ->
  exists s',
    run_listeners EvError (Some e) ls s = Throw no_controller s' /\
    kBody s' = kBody s.
Proof.
  revert s. induction ls as [|[ev fn] ls IH]; intros s Hin; [contradiction|].
  simpl. unfold bind.
  destruct (event_eqb ev EvError) eqn:Hev.
  - destruct (handler_is_controller_error fn) eqn:Hfn.
    + destruct fn; try discriminate Hfn. now exists s.
    + assert (Hne : fn <> HControllerError)
        by (intros ->; discriminate Hfn).
      destruct (run_listener_returns fn (Some e) s Hne) as (s1 & Hrun & Hk1).
      rewrite Hrun. destruct Hin as [Heq|Hin].
      * injection Heq as _ Heq. exfalso. exact (Hne Heq).
      * destruct (IH s1 Hin) as (s' & Hs' & Hk'). exists s'.
        split; [exact Hs'|]. now rewrite Hk'.
  - unfold ret. destruct Hin as [Heq|Hin].
    + injection Heq as -> _. discriminate Hev.
    + exact (IH s Hin).
Qed.

(** X16: in pull-stream mode an error of the stream does not reach the
    controller.  The 'error' listener [body] registers calls
    [this.controller.error(err)] on the underlying source, which has no
    [controller]: emitting 'error' throws that [TypeError] out of the
    emission, whatever the error was, and the lock and its controller are
    as before. *)
Theorem error_event_in_pull_stream (e : JSError) (s : Stream) :
  In (EvError, HControllerError) (listeners (rs s)) ->
  exists s',
    emit_error e s = Throw no_controller s' /\ kBody s' = kBody s.
Proof.
  intros Hin. unfold emit_error. run_m.
  destruct (Nat.eqb (listenerCount EvError s) 0) eqn:Hc.
  - apply Nat.eqb_eq in Hc.
    now destruct (listenerCount_In EvError HControllerError s Hin).
  - exact (run_listeners_throws e (listeners (rs s)) s Hin).
Qed.

Lemma tears_down_cons (ev : Event) (fn : Handler)
  (ls : list (Event * Handler)) :
  tears_down ((ev, fn) :: ls) =
    (event_eqb ev EvEnd && handler_is_end_destroy fn) || tears_down ls.
Proof. unfold tears_down. simpl. now destruct ev, fn. Qed.

Lemma run_end_listeners (ls : list (Event * Handler)) (s : Stream) :
  no_throwing_listener EvEnd ls ->
  run_listeners EvEnd None ls s =
    Return tt
      (if tears_down ls && negb (destroyed (rs s))
       then with_rs (with_destroyed true None (rs s)) s
       else s).
Proof.
  revert s. induction ls as [|[ev fn] ls IH]; intros s Hno; [reflexivity|].
  assert (Hno' : no_throwing_listener EvEnd ls).
  { intros fn' Hin. apply Hno. now right. }
  rewrite tears_down_cons. simpl. unfold bind.
  destruct (event_eqb ev EvEnd) eqn:Hev; simpl.
  - apply event_eqb_eq in Hev. subst ev.
    assert (Hfn : fn <> HControllerError) by (apply Hno; now left).
    destruct fn; simpl; try (exfalso; now apply Hfn);
      try (rewrite (IH s Hno'); reflexivity).
    unfold Readable_destroy, modify_rs. run_m.
    destruct (destroyed (rs s)) eqn:Hd; simpl; rewrite IH by exact Hno';
      simpl; rewrite ?Hd, ?andb_false_r; reflexivity.
  - unfold ret. now rewrite (IH s Hno').
Qed.

(** X17: the natural end tears the stream down without an error.  When
    the base stream emits 'end' on a stream consumed by a mode, the 'end'
    listener of the module destroys the base stream with no error, and a
    [destroy()] with no error that follows finds the end emitted and
    synthesizes no [AbortError], lock or no lock: nothing is reported. *)
Theorem end_tears_down_quietly (s : Stream) :
  tears_down (listeners (rs s)) = true ->
  no_throwing_listener EvEnd (listeners (rs s)) ->
  destroyed (rs s) = false ->
  exists s',
    emit_end s = Return tt s' /\
    endEmitted (rs s') = true /\
    destroyed (rs s') = true /\
    errored (rs s') = None /\
    ticks s' = ticks s /\
    kBody s' = kBody s /\
    ticks (outcome_state (destroy None s')) = ticks s /\
    errored (rs (outcome_state (destroy None s'))) = None.
Proof.
  intros Ht Hno Hd. unfold emit_end, modify_rs. run_m.
  rewrite (run_end_listeners _ _ Hno). simpl. rewrite Ht, Hd. simpl.
  eexists. split; [reflexivity|]. simpl. repeat split.
  - unfold destroy, Readable_destroy. run_m.
    destruct (kDestroyed s); reflexivity.
  - unfold destroy, Readable_destroy. run_m.
    destruct (kDestroyed s); reflexivity.
Qed.

End Properties.

(** * The properties at concrete streams *)

Section AtConcreteStreams.

#[local] Existing Instance example_primitives.

Lemma consume_disturbed_witness :
  bodyUsed pulled_then_fed = true /\
  text pulled_then_fed = Throw (TypeError "disturbed") pulled_then_fed.
Proof.
  split; [reflexivity|].
  apply (consume_disturbed ThisUndefined (Some kTextType) pulled_then_fed).
  reflexivity.
Defined.

Lemma second_consume_fails_witness :
  kBody (outcome_state (body (new_BodyReadable (Some false)))) =
    Obj (WebLock false (Some Controller.fresh)) /\
  json (outcome_state (body (new_BodyReadable (Some false)))) =
    Throw (TypeError "locked")
      (outcome_state (body (new_BodyReadable (Some false)))).
Proof.
  split; [reflexivity|].
  apply (second_consume_fails ThisUndefined (Some kJSONType)
           (outcome_state (body (new_BodyReadable (Some false))))
           (WebLock false (Some Controller.fresh))).
  reflexivity.
Defined.

(** With the pull-stream lock installed and one chunk delivered through
    it, a further consumption attempt throws 'disturbed', not 'locked'. *)
Lemma second_attempt_after_chunk_is_disturbed :
  kBody pulled_then_fed = Obj (WebLock true (Some one_chunk_queued)) /\
  text pulled_then_fed = Throw (TypeError "disturbed") pulled_then_fed /\
  ~ (exists s', text pulled_then_fed = Throw (TypeError "locked") s').
Proof.
  split; [reflexivity|]. split; [reflexivity|].
  intros [s' Hs']. discriminate Hs'.
Qed.

Lemma lock_object_is_kept_witness :
  has_lock (kWebStreamType, None)
    (run [OText; OResume; OPush (Some (bytes "cd")); OBody; OPush None;
          OMicrotask; ONaturalEnd; ODestroy None; OTick]
       pulled_then_fed) /\
  text (gated None) = Throw (TypeError "disturbed") (gated None).
Proof.
  split.
  - apply (proj1 (lock_object_is_kept pulled_then_fed)
             (WebLock true (Some one_chunk_queued))).
    reflexivity.
  - apply (proj2 (lock_object_is_kept (gated None)) eq_refl
             ThisUndefined kTextType).
    reflexivity.
Defined.

(** After the legacy gate ([resume]), asking for the body as a pull stream
    does not fail with 'locked': where the base stream reports that
    nothing was read, a new lock is installed over the [null] of the gate;
    where it has no [readableDidRead], the attempt fails with
    'disturbed'. *)
Lemma mode_after_gate_is_not_locked :
  kBody (gated (Some false)) = Null /\
  (exists s', body (gated (Some false)) = Return RReadableStream s' /\
              kBody s' = Obj (WebLock false (Some Controller.fresh))) /\
  kBody (gated None) = Null /\
  body (gated None) = Throw (TypeError "disturbed") (gated None).
Proof.
  split; [reflexivity|]. split; [|split; reflexivity].
  eexists. split; reflexivity.
Qed.

Lemma destroy_without_error_witness :
  errored (rs pulled_then_destroyed) = Some AbortError /\
  ticks pulled_then_destroyed = [TEmitError AbortError].
Proof.
  destruct (destroy_without_error
              (outcome_state (body (new_BodyReadable (Some false))))
              eq_refl eq_refl)
    as (s' & Hrun & _ & _ & Herr & Hticks).
  assert (Hs' : s' = pulled_then_destroyed).
  { apply (f_equal outcome_state) in Hrun. symmetry. exact Hrun. }
  rewrite <- Hs'. split; [exact Herr|exact Hticks].
Defined.

(** A stream consumed through the legacy gate holds a lock ([kBody] is
    [null]) and has not ended; destroying it with no error synthesizes no
    [AbortError]. *)
Lemma destroy_after_gate_has_no_abort :
  kBody (gated (Some false)) = Null /\
  endEmitted (rs (gated (Some false))) = false /\
  kDestroyed (gated (Some false)) = false /\
  errored (rs (outcome_state (destroy None (gated (Some false))))) = None /\
  ticks (outcome_state (destroy None (gated (Some false)))) = [].
Proof. repeat split. Qed.

(** The [AbortError] of the pull-stream mode does not reach the
    controller: the 'error' listener of line 158 reads [this.controller]
    on the underlying source and throws. *)
Lemma abort_does_not_reach_controller :
  ticks pulled_then_destroyed = [TEmitError AbortError] /\
  exists s',
    run_tick pulled_then_destroyed = Throw no_controller s' /\
    kBody s' = Obj (WebLock false (Some Controller.fresh)).
Proof.
  split; [reflexivity|]. eexists. split; reflexivity.
Qed.

Lemma push_chunk_pull_stream_witness :
  push (Some (bytes "cd")) pulled_then_fed =
    Return true
      (with_kBody
         (Obj (WebLock true
                 (Some {| Controller.queue := [bytes "ab"; bytes "cd"];
                          Controller.closeRequested := false;
                          Controller.state := Controller.SReadable |})))
         pulled_then_fed) /\
  push (Some (bytes "ab")) pulled_ended =
    Throw Controller.invalid_state pulled_ended.
Proof.
  split.
  - destruct (proj1 (push_chunk_pull_stream (bytes "cd") pulled_then_fed
                       true one_chunk_queued eq_refl eq_refl) eq_refl)
      as (c' & Henq & Hpush & _).
    injection Henq as <-. exact Hpush.
  - exact (proj2 (push_chunk_pull_stream (bytes "ab") pulled_ended true
                    closed_empty eq_refl eq_refl) eq_refl).
Defined.

(** A chunk pushed after the end sentinel, on a live stream whose lock has
    its controller: [push] throws, the chunk is not enqueued and nothing
    is returned. *)
Lemma push_chunk_after_end_throws :
  destroyed (rs pulled_ended) = false /\
  kBody pulled_ended = Obj (WebLock true (Some closed_empty)) /\
  push (Some (bytes "ab")) pulled_ended =
    Throw Controller.invalid_state pulled_ended /\
  (forall r s', push (Some (bytes "ab")) pulled_ended <> Return r s').
Proof. repeat split. intros r s'. discriminate. Qed.

Lemma install_drains_backlog_witness :
  exists s' u' c',
    body backlogged = Return RReadableStream s' /\
    kBody s' = Obj (WebLock u' (Some c')) /\
    Controller.queue c' = [bytes "ab"; bytes "cd"] /\
    Controller.closeRequested c' = true /\
    buffer (rs s') = [] /\
    microtasks s' = [TPushNull].
Proof.
  exact (proj2 (install_drains_backlog backlogged eq_refl eq_refl eq_refl)
           eq_refl).
Defined.

(** Two installations that drain nothing.  The legacy gate installs its
    lock, [null], which has no [push]: the backlog stays in the base
    stream.  And [body] on a stream with a 'data' listener assigns its
    lock and then fails the assertion of [start]: the backlog stays where
    it was and the controller's queue is empty. *)
Lemma lock_installed_backlog_left :
  (exists s',
     on EvReadable (HUser 0) backlogged = Return tt s' /\
     kBody s' = Null /\
     buffer (rs s') = [bytes "ab"; bytes "cd"]) /\
  (exists e s',
     body backlogged_listening = Throw e s' /\
     err_name e = "AssertionError" /\
     kBody s' = Obj (WebLock false (Some Controller.fresh)) /\
     buffer (rs s') = [bytes "ab"; bytes "cd"]).
Proof.
  split.
  - eexists. repeat split.
  - do 2 eexists. repeat split.
Qed.

Lemma push_after_destroy_witness :
  destroyed (rs pulled_then_destroyed) = true /\
  push (Some (bytes "ab")) pulled_then_destroyed =
    Return false pulled_then_destroyed /\
  push None gated_destroyed = Readable_push None gated_destroyed.
Proof.
  split; [reflexivity|]. split.
  - apply (proj1 (push_after_destroy (Some (bytes "ab"))
                    pulled_then_destroyed)
             (WebLock false (Some Controller.fresh))); reflexivity.
  - apply (proj2 (push_after_destroy None gated_destroyed)). reflexivity.
Defined.

(** In the legacy gate [push] goes to the base stream, which has no such
    check: on a destroyed stream the end sentinel still marks the end. *)
Lemma push_after_destroy_in_gate :
  kBody gated_destroyed = Null /\
  destroyed (rs gated_destroyed) = true /\
  ended (rs gated_destroyed) = false /\
  ended (rs (outcome_state (push None gated_destroyed))) = true.
Proof. repeat split. Qed.

(** [text()], then "ab", "cd" and the end: rejected, not "abcd". *)
Lemma text_ab_cd :
  let s := run (OText :: produce [bytes "ab"; bytes "cd"])
             (new_BodyReadable (Some false)) in
  promise_state 0 s = Some (Rejected no_type) /\
  kBody s = Undefined /\
  buffer (rs s) = [bytes "ab"; bytes "cd"] /\
  ended (rs s) = true.
Proof. repeat split. Qed.

(** [json()], then the two halves of [{"a":1}] and the end: rejected, and
    nothing was parsed; the stream is not destroyed. *)
Lemma json_a_1 :
  let s := run (OJson :: produce [chunk_open_a; chunk_1_close])
             (new_BodyReadable (Some false)) in
  promise_state 0 s = Some (Rejected no_type) /\
  kBody s = Undefined /\
  buffer (rs s) = [chunk_open_a; chunk_1_close] /\
  destroyed (rs s) = false.
Proof. repeat split. Qed.

(** Were [this.type] the [type] argument, [text] would resolve with the
    decoded chunks in push order. *)
Lemma text_with_receiver_resolves :
  promise_state 0
    (run (produce [bytes "ab"; bytes "cd"]) text_lock_installed) =
  Some (Fulfilled (VBody (BStr "abcd"))).
Proof. reflexivity. Qed.

(** Likewise [json]: it would resolve with the parsed value, and on a
    parse failure destroy the stream with it, which rejects the promise
    when the base stream emits 'error'. *)
Lemma json_with_receiver_parses :
  promise_state 0
    (run (produce [bytes "nu"; bytes "ll"]) json_lock_installed) =
  Some (Fulfilled (VJson JNull)) /\
  let s := run (produce [bytes "not json"]) json_lock_installed in
  destroyed (rs s) = true /\
  promise_state 0 s = Some Pending /\
  promise_state 0 (run [OTick] s) =
    Some (Rejected (SyntaxError "Unexpected token in JSON")).
Proof. repeat split. Qed.

(** ** The further properties at concrete streams *)

Lemma destroy_error_is_kept_witness :
  errored (rs (run [ODestroy (Some (Error "boom")); ODestroy None;
                    OCancel ReasonOther; OTick] pulled_then_fed)) =
    Some (Error "boom").
Proof.
  exact (proj2 (proj2 (destroy_error_is_kept (Error "boom")
                         [ODestroy None; OCancel ReasonOther; OTick]
                         pulled_then_fed eq_refl eq_refl))).
Defined.

Lemma cancel_destroys_witness :
  (exists s',
     cancel (ReasonString "stop") pulled_then_fed = Return tt s' /\
     kDestroyed s' = true /\
     destroyed (rs s') = true /\
     errored (rs s') = Some (Error "stop") /\
     ticks s' = [TEmitError (Error "stop")]) /\
  cancel ReasonOther pulled_then_destroyed = Return tt pulled_then_destroyed.
Proof.
  split.
  - exact (proj1 (cancel_destroys (ReasonString "stop") pulled_then_fed)
             eq_refl eq_refl).
  - exact (proj2 (cancel_destroys ReasonOther pulled_then_destroyed) eq_refl).
Defined.

Lemma kDestroyed_implies_destroyed_witness :
  destroyed (rs (run [OResume; ODestroy None; OPush None]
                   (new_BodyReadable None))) = true.
Proof.
  exact (kDestroyed_implies_destroyed None
           [OResume; ODestroy None; OPush None] eq_refl).
Defined.

Lemma push_after_destroy_forever_witness :
  push (Some (bytes "cd"))
    (run [ODestroy None; OTick; OPull; OConsumerRead] pulled_then_fed) =
  Return false
    (run [ODestroy None; OTick; OPull; OConsumerRead] pulled_then_fed).
Proof.
  exact (push_after_destroy_forever None [OTick; OPull; OConsumerRead]
           (Some (bytes "cd")) pulled_then_fed
           (WebLock true (Some one_chunk_queued)) eq_refl eq_refl).
Defined.

Lemma accumulator_promise_stays_rejected_witness :
  exists s',
    blob (new_BodyReadable (Some false)) = Return (RPromise 0) s' /\
    kBody s' = Undefined /\
    bodyUsed s' = false /\
    promise_state 0
      (run [OPush (Some (bytes "ab")); OPush None; ONaturalEnd; ODestroy None]
         s') = Some (Rejected no_type).
Proof.
  exact (accumulator_promise_stays_rejected ABlob
           [OPush (Some (bytes "ab")); OPush None; ONaturalEnd; ODestroy None]
           (new_BodyReadable (Some false)) eq_refl eq_refl).
Defined.

Lemma delivery_disturbs_for_good_witness :
  bodyUsed (run [OPush (Some (bytes "ab")); OConsumerRead; OPull] pulled) =
    true /\
  arrayBuffer (run [OPush (Some (bytes "ab")); OConsumerRead; OPull] pulled) =
    Throw (TypeError "disturbed")
      (run [OPush (Some (bytes "ab")); OConsumerRead; OPull] pulled).
Proof.
  exact (delivery_disturbs_for_good (Some (bytes "ab"))
           [OConsumerRead; OPull] ThisUndefined (Some kArrayBufferType)
           pulled (WebLock false (Some Controller.fresh)) eq_refl eq_refl).
Defined.

Lemma legacy_call_gates_witness :
  resume (new_BodyReadable (Some false)) =
    Readable_resume (with_kBody Null (new_BodyReadable (Some false))) /\
  on EvData (HUser 0) (new_BodyReadable (Some true)) =
    Throw (TypeError "disturbed") (new_BodyReadable (Some true)) /\
  on EvError (HUser 0) (new_BodyReadable (Some false)) =
    Readable_on EvError (HUser 0) (new_BodyReadable (Some false)).
Proof.
  split; [|split].
  - destruct (proj1 (legacy_call_gates (new_BodyReadable (Some false))
                       eq_refl) eq_refl) as (_ & Hr & _). exact Hr.
  - destruct (proj1 (proj2 (legacy_call_gates (new_BodyReadable (Some true))
                              eq_refl)) eq_refl) as (_ & _ & _ & Hon).
    exact (Hon EvData (HUser 0) eq_refl).
  - exact (proj2 (proj2 (legacy_call_gates (new_BodyReadable (Some false))
                           eq_refl)) EvError (HUser 0) eq_refl).
Defined.

Lemma legacy_call_after_consumption_witness :
  resume (run [OBody; OPush (Some (bytes "ab")); ODestroy None]
            (gated (Some false))) =
    Readable_resume (run [OBody; OPush (Some (bytes "ab")); ODestroy None]
                       (gated (Some false))) /\
  on EvData (HUser 0) (run [OText] (gated (Some false))) =
    Readable_on EvData (HUser 0) (run [OText] (gated (Some false))).
Proof.
  assert (Hk : kBody (gated (Some false)) <> Undefined) by discriminate.
  split.
  - exact (proj1 (proj2 (legacy_call_after_consumption
                           [OBody; OPush (Some (bytes "ab")); ODestroy None]
                           (gated (Some false)) Hk))).
  - exact (proj2 (proj2 (proj2 (legacy_call_after_consumption [OText]
                                  (gated (Some false)) Hk)))
             EvData (HUser 0)).
Defined.

Lemma body_with_data_listener_witness :
  text (pull_stream_installed listening) =
    Throw (TypeError "locked") (pull_stream_installed listening) /\
  text (run [OPush (Some (bytes "ab"))] (pull_stream_installed listening)) =
    Throw (TypeError "disturbed")
      (run [OPush (Some (bytes "ab"))] (pull_stream_installed listening)).
Proof.
  assert (Hc : listenerCount EvData listening <> 0) by discriminate.
  destruct (body_with_data_listener [OPush (Some (bytes "ab"))] listening
              eq_refl eq_refl Hc) as (_ & _ & Hl & _ & Hd).
  split; [exact (Hl ThisUndefined (Some kTextType))|].
  exact (Hd ThisUndefined (Some kTextType)).
Defined.

Lemma body_on_destroyed_drops_backlog_witness :
  buffer (rs backlogged_destroyed) = [bytes "ab"] /\
  exists s',
    body backlogged_destroyed = Return RReadableStream s' /\
    kBody s' = Obj (WebLock false (Some Controller.fresh)) /\
    buffer (rs s') = [] /\
    microtasks s' = microtasks backlogged_destroyed.
Proof.
  split; [reflexivity|].
  exact (body_on_destroyed_drops_backlog backlogged_destroyed
           eq_refl eq_refl eq_refl eq_refl).
Defined.

Lemma pull_stream_capacity_witness :
  exists s', push (Some (bytes "cd")) pulled_then_fed = Return true s'.
Proof.
  exact (pull_stream_capacity (bytes "cd") pulled_then_fed true
           one_chunk_queued eq_refl eq_refl eq_refl).
Defined.

Lemma pull_stream_end_is_deferred_witness :
  exists r s' c',
    push None pulled = Return r s' /\
    kBody s' = Obj (WebLock true (Some c')) /\
    Controller.closeRequested c' = true /\
    Controller.queue c' = [] /\
    ended (rs s') = false /\
    microtasks s' = [TPushNull] /\
    ended (rs (outcome_state (run_microtask s'))) = true.
Proof.
  exact (pull_stream_end_is_deferred pulled false Controller.fresh
           eq_refl eq_refl eq_refl eq_refl).
Defined.

Lemma error_event_in_pull_stream_witness :
  exists s',
    emit_error AbortError pulled_then_destroyed = Throw no_controller s' /\
    kBody s' = kBody pulled_then_destroyed.
Proof.
  apply (error_event_in_pull_stream AbortError pulled_then_destroyed).
  simpl. left. reflexivity.
Defined.

Lemma end_tears_down_quietly_witness :
  exists s',
    emit_end pulled_to_end = Return tt s' /\
    endEmitted (rs s') = true /\
    destroyed (rs s') = true /\
    errored (rs s') = None /\
    ticks s' = ticks pulled_to_end /\
    kBody s' = kBody pulled_to_end /\
    ticks (outcome_state (destroy None s')) = ticks pulled_to_end /\
    errored (rs (outcome_state (destroy None s'))) = None.
Proof.
  apply (end_tears_down_quietly pulled_to_end); [reflexivity| |reflexivity].
  intros fn Hin. simpl in Hin.
  destruct Hin as [Habs|[Heq|[]]]; [discriminate Habs|].
  injection Heq as <-. discriminate.
Defined.

End AtConcreteStreams.
